(** * cloudscape-examples: the well-architected intelligent agent

    A shallow embedding of the parts of the repository that carry behaviour:

    - [Fs]: [Utils.copyDirRecursive] of [lib/utils.ts], over a model of the
      synchronous [node:fs] calls it makes (regular files and directories);
    - [FileUpload]: [handleFileChange] of the [FileUploadComponent] that the
      chat input panel renders;
    - [ChatPanel]: the handlers of [ChatUIInputPanel], the chat input panel
      itself, and the events that reach them;
    - [Api]: the module body of [amplify-config.ts] and
      [ChatApiService.sendChatMessage];
    - [IndexCreation]: the request the index creation function of
      [BedrockStack] makes;
    - [RunContainer]: how [run-container.sh] reads its command line;
    - [Cdk]: the S3 buckets the CDK stacks declare, and the Lambda
      functions that are given them;
    - [Handlers]: the diagram and document generation handlers. Their
      Python source is not among the sources; they are modelled from the
      specification, each definition saying so.

    Definitions come first, the results about them follow. *)

From Stdlib Require Import ZArith QArith Qabs.
From stdpp Require Import gmap strings list fin_maps pretty.

Open Scope string_scope.
Open Scope list_scope.
Open Scope nat_scope.

(* ===================================================================== *)
(** * Part I: definitions                                                 *)
(* ===================================================================== *)

(** ** [lib/utils.ts]: recursive directory copy *)

Module Fs.

(** A path is the list of its components, root first; [path.join dir file]
    for a single component [file] (what [readdirSync] returns) appends it. *)
Definition join (dir : list string) (file : string) : list string :=
  dir ++ [file].

(** [path.dirname]: the path without its last component. *)
Definition dirname (p : list string) : list string :=
  take (length p - 1) p.

(** What a path names: a regular file with its contents, or a directory.
    The file system is the finite map from the paths that exist. Symbolic
    links, permissions and other kinds of entry are left out. *)
Inductive entry : Type :=
| File (data : string)
| Directory.

#[global]
Instance entry_eq_dec : EqDecision entry.
Proof. solve_decision. Defined.

Abbreviation FS := (gmap (list string) entry).

(** The error codes the modelled calls throw. *)
Inductive errno : Type := ENOENT | ENOTDIR | EEXIST | EISDIR.

(** A call returns, throws, or is still descending when the stack it was
    given is used up ([fuel] bounds the depth of the recursion). *)
Inductive result (A : Type) : Type :=
| Ok (a : A)
| Throw (e : errno)
| OutOfFuel.
Arguments Ok {A} a.
Arguments Throw {A} e.
Arguments OutOfFuel {A}.

#[global]
Instance result_bind : MBind result := λ A B k r,
  match r with
  | Ok a => k a
  | Throw e => Throw e
  | OutOfFuel => OutOfFuel
  end.

(** [fs.existsSync p] *)
Definition existsSync (p : list string) (fs : FS) : bool :=
  bool_decide (is_Some (fs !! p)).

(** [fs.mkdirSync p], without [recursive]: the parent must be a directory
    and [p] must not exist. *)
Definition mkdirSync (p : list string) (fs : FS) : result FS :=
  match fs !! p with
  | Some _ => Throw EEXIST
  | None =>
    match p with
    | [] => Throw ENOENT
    | _ =>
      match fs !! dirname p with
      | None => Throw ENOENT
      | Some (File _) => Throw ENOTDIR
      | Some Directory => Ok (<[p := Directory]> fs)
      end
    end
  end.

(** The name [file] when [q] is the child [join p file] of [p]. *)
Definition child_name (p q : list string) : option string :=
  match drop (length p) q with
  | [file] => if bool_decide (take (length p) q = p) then Some file else None
  | _ => None
  end.

(** [fs.readdirSync p]: the names of the entries of the directory [p]. *)
Definition readdirSync (p : list string) (fs : FS) : result (list string) :=
  match fs !! p with
  | None => Throw ENOENT
  | Some (File _) => Throw ENOTDIR
  | Some Directory => Ok (omap (λ qe, child_name p qe.1) (map_to_list fs))
  end.

(** [fs.statSync p] and [stats.isDirectory()] *)
Definition statSync (p : list string) (fs : FS) : result entry :=
  match fs !! p with
  | None => Throw ENOENT
  | Some e => Ok e
  end.

Definition isDirectory (stats : entry) : bool :=
  match stats with
  | Directory => true
  | File _ => false
  end.

(** [fs.copyFileSync src dest]: [dest] is created or overwritten; it must
    not be a directory and its parent must be one. *)
Definition copyFileSync (src dest : list string) (fs : FS) : result FS :=
  match fs !! src with
  | None => Throw ENOENT
  | Some Directory => Throw EISDIR
  | Some (File data) =>
    match fs !! dest with
    | Some Directory => Throw EISDIR
    | _ =>
      match dest with
      | [] => Throw ENOENT
      | _ =>
        match fs !! dirname dest with
        | None => Throw ENOENT
        | Some (File _) => Throw ENOTDIR
        | Some Directory => Ok (<[dest := File data]> fs)
        end
      end
    end
  end.

(** [for (const file of files) body] over the file system, stopping at the
    first iteration that does not return. *)
Fixpoint for_of (files : list string) (body : string → FS → result FS)
    (fs : FS) : result FS :=
  match files with
  | [] => Ok fs
  | file :: rest =>
    match body file fs with
    | Ok fs' => for_of rest body fs'
    | Throw e => Throw e
    | OutOfFuel => OutOfFuel
    end
  end.

(** [Utils.copyDirRecursive(sourceDir, targetDir)] *)
Fixpoint copyDirRecursive (fuel : nat) (sourceDir targetDir : list string)
    (fs : FS) : result FS :=
  match fuel with
  | O => OutOfFuel
  | S fuel' =>
    fs1 ← (if negb (existsSync targetDir fs) then mkdirSync targetDir fs
           else Ok fs);
    files ← readdirSync sourceDir fs1;
    for_of files (λ file fs2,
      let sourceFilePath := join sourceDir file in
      let targetFilePath := join targetDir file in
      stats ← statSync sourceFilePath fs2;
      if isDirectory stats
      then copyDirRecursive fuel' sourceFilePath targetFilePath fs2
      else copyFileSync sourceFilePath targetFilePath fs2) fs1
  end.

(** Every entry but the root lies in a directory. *)
Definition wf (fs : FS) : Prop :=
  ∀ p file, is_Some (fs !! join p file) → fs !! p = Some Directory.

(** Neither directory lies inside the other (nor are they the same). *)
Definition disjoint (sourceDir targetDir : list string) : Prop :=
  ¬ sourceDir `prefix_of` targetDir ∧ ¬ targetDir `prefix_of` sourceDir.

Definition same_kind (e1 e2 : entry) : bool :=
  match e1, e2 with
  | File _, File _ => true
  | Directory, Directory => true
  | _, _ => false
  end.

(** Where the target already has an entry at a place the source has one,
    both are files or both are directories. *)
Definition compatible (fs : FS) (sourceDir targetDir : list string) : Prop :=
  ∀ r e e', fs !! (sourceDir ++ r) = Some e →
            fs !! (targetDir ++ r) = Some e' → same_kind e e' = true.

(** The directories at and below [sourceDir] nest less than [fuel] deep:
    each level of directories takes one recursive call. *)
Definition depth_below (fs : FS) (sourceDir : list string) (fuel : nat) : Prop :=
  ∀ r, fs !! (sourceDir ++ r) = Some Directory → length r < fuel.

(** The body of the loop of a call that has [fuel] calls left below it. *)
Definition body (fuel : nat) (sourceDir targetDir : list string)
    : string → FS → result FS :=
  λ file fs2,
    stats ← statSync (join sourceDir file) fs2;
    if isDirectory stats
    then copyDirRecursive fuel (join sourceDir file) (join targetDir file) fs2
    else copyFileSync (join sourceDir file) (join targetDir file) fs2.

(** What a call with [fuel] levels of stack achieves: every entry of the
    source is at the same place below the target afterwards. *)
Definition copies_spec (fuel : nat) : Prop :=
  ∀ (s t : list string) (fs : FS),
    wf fs → fs !! s = Some Directory → disjoint s t →
    (fs !! t = None → fs !! dirname t = Some Directory) →
    compatible fs s t → depth_below fs s fuel →
    ∃ fs', copyDirRecursive fuel s t fs = Ok fs' ∧
           ∀ r e, fs !! (s ++ r) = Some e → fs' !! (t ++ r) = Some e.

(** Boolean checks of [wf] and [compatible], for concrete file systems. *)
Definition wf_check (fs : FS) : bool :=
  bool_decide (map_Forall (λ q _,
    q = [] ∨ fs !! dirname q = Some Directory) fs).

Definition compatible_check (fs : FS) (sourceDir targetDir : list string) : bool :=
  bool_decide (map_Forall (λ q e,
    sourceDir `prefix_of` q →
    default true
      (same_kind e <$> fs !! (targetDir ++ drop (length sourceDir) q)) = true) fs).

(** A small tree: [src/] with [a.txt] and [sub/b.txt], next to an empty
    [out/]. *)
Definition example_fs : FS :=
  list_to_map
    [ ([], Directory);
      (["src"], Directory);
      (["src"; "a.txt"], File "alpha");
      (["src"; "sub"], Directory);
      (["src"; "sub"; "b.txt"], File "beta");
      (["out"], Directory) ].

(** The same tree with a regular file where the copy needs a directory. *)
Definition clash_fs : FS := <[ ["out"; "sub"] := File "clash" ]> example_fs.

(** A source directory inside the target: [out/in/] holds [in/x.txt]. *)
Definition nested_fs : FS :=
  list_to_map
    [ ([], Directory);
      (["out"], Directory);
      (["out"; "in"], Directory);
      (["out"; "in"; "in"], Directory);
      (["out"; "in"; "in"; "x.txt"], File "chi") ].

End Fs.

(** ** [FileUploadComponent]: the file chooser of the chat input *)

Module FileUpload.

(** A browser [File]: its name and its size in bytes. *)
Record File : Type := { name : string; size : Z }.

(** The component's own state ([useState]). *)
Record State : Type := {
  selectedFile : option File;
  error : string
}.

Definition setSelectedFile (file : option File) (st : State) : State :=
  {| selectedFile := file; error := error st |}.

Definition setError (message : string) (st : State) : State :=
  {| selectedFile := selectedFile st; error := message |}.

Section Component.

(** The state of whoever renders the component: the callbacks update it.
    [P] is arbitrary, so a callback can observe every invocation. *)
Context {P : Type}.

(** How a template literal prints a number. *)
Variable number_to_string : Q → string.

(** [FileUploadProps]: every property is optional. [maxFileSizeMB] is a
    finite number; multiplying it by [1024 * 1024] is exact in binary
    floating point, so rationals compare as the numbers do. *)
Record FileUploadProps : Type := {
  onFileSelect : option (File → P → P);
  onFileRemove : option (P → P);
  acceptedFileTypes : option string;
  maxFileSizeMB : option Q
}.

(** The limit in bytes, with the default of the destructuring pattern. *)
Definition maxFileSizeBytes (props : FileUploadProps) : Q :=
  (default (10 # 1) (maxFileSizeMB props) * (1024 # 1) * (1024 # 1))%Q.

(** [file.size > maxFileSizeMB * 1024 * 1024] *)
Definition too_large (props : FileUploadProps) (file : File) : bool :=
  negb (Qle_bool (inject_Z (size file)) (maxFileSizeBytes props)).

(** [handleFileChange]: [files] is [event.target.files], the chosen file
    is its first element when there is one. The result is the state after
    the queued updates, and the parent after the callback. *)
Definition handleFileChange (props : FileUploadProps)
    (files : option (list File)) (st : State) (parent : P) : State * P :=
  let file := files ≫= head in
  let st := setError "" st in
  match file with
  | Some file =>
    if too_large props file then
      (setError ("File size must be less than "
                 +:+ number_to_string (default (10 # 1) (maxFileSizeMB props))
                 +:+ "MB") st,
       parent)
    else
      let st := setSelectedFile (Some file) st in
      (st, match onFileSelect props with
           | Some callback => callback file parent
           | None => parent
           end)
  | None => (st, parent)
  end.

(** [handleRemoveFile] *)
Definition handleRemoveFile (props : FileUploadProps) (st : State) (parent : P)
    : State * P :=
  let st := setError "" (setSelectedFile None st) in
  (st, match onFileRemove props with
       | Some callback => callback parent
       | None => parent
       end).

End Component.

Arguments FileUploadProps P : clear implicits.

(** [ChatUIInputPanel], which renders the component: its state and the
    callbacks and limit it passes. *)
Record PanelState : Type := {
  inputText : string;
  panelSelectedFile : option File
}.

Definition handleFileSelect (file : File) (panel : PanelState) : PanelState :=
  {| inputText := inputText panel; panelSelectedFile := Some file |}.

Definition handleFileRemove (panel : PanelState) : PanelState :=
  {| inputText := inputText panel; panelSelectedFile := None |}.

Definition panel_props : FileUploadProps PanelState :=
  {| onFileSelect := Some handleFileSelect;
     onFileRemove := Some handleFileRemove;
     acceptedFileTypes := Some "image/*,.pdf,.doc,.docx";
     maxFileSizeMB := Some (10 # 1) |}.

(** A parent that records every file [onFileSelect] is invoked with. *)
Definition logging_props (maxMB : option Q) : FileUploadProps (list File) :=
  {| onFileSelect := Some (λ file log, log ++ [file]);
     onFileRemove := None;
     acceptedFileTypes := None;
     maxFileSizeMB := maxMB |}.

(** Decimal printing of whole numbers, enough for the limits in use: of a
    number with a fraction only the whole part is printed, which is not
    what a template literal prints. *)
Definition show_number (q : Q) : string := pretty (Qnum q / Zpos (Qden q))%Z.

End FileUpload.

(** ** [ChatUIInputPanel]: the chat input, which renders the file chooser *)

Module ChatPanel.
Import FileUpload.

(** [ChatScrollState] of [./chat-ui]: the three flags the panel reads and
    assigns. *)
Record ChatScrollState : Type := {
  userHasScrolled : bool;
  skipNextScrollEvent : bool;
  skipNextHistoryUpdate : bool
}.

(** What the scroll handlers read: [window.innerHeight], [window.scrollY]
    and [document.documentElement.scrollHeight]. *)
Record Window : Type := { innerHeight : Q; scrollY : Q; scrollHeight : Q }.

(** The argument of [window.scrollTo]. *)
Record ScrollToOptions : Type := { top : Q; behavior : string }.

(** What [onTextareaKeyDown] reads of the keyboard event. *)
Record KeyboardEvent : Type := { key : string; shiftKey : bool }.

(** [Math.abs(innerHeight + scrollY - scrollHeight) <= 10], with the sum
    taken exactly, where JavaScript rounds it to a double. *)
Definition isScrollToTheEnd (w : Window) : bool :=
  Qle_bool (Qabs (innerHeight w + scrollY w - scrollHeight w)) (10 # 1).

(** The listener of the window's [scroll] event. *)
Definition onWindowScroll (w : Window) (c : ChatScrollState) : ChatScrollState :=
  if skipNextScrollEvent c then
    {| userHasScrolled := userHasScrolled c;
       skipNextScrollEvent := false;
       skipNextHistoryUpdate := skipNextHistoryUpdate c |}
  else if negb (isScrollToTheEnd w) then
    {| userHasScrolled := true;
       skipNextScrollEvent := skipNextScrollEvent c;
       skipNextHistoryUpdate := skipNextHistoryUpdate c |}
  else
    {| userHasScrolled := false;
       skipNextScrollEvent := skipNextScrollEvent c;
       skipNextHistoryUpdate := skipNextHistoryUpdate c |}.

Section Panel.

(** The state of whoever renders the panel, and the type of a chat
    message, of which the panel only counts how many there are. *)
Context {P ChatMessage : Type}.

Variable number_to_string : Q → string.

(** [ChatUIInputPanelProps]. [onSendMessage] is declared with a second,
    optional parameter for a file. *)
Record ChatUIInputPanelProps : Type := {
  inputPlaceholderText : option string;
  sendButtonText : option string;
  running : option bool;
  messages : option (list ChatMessage);
  props_onSendMessage : option (string → option File → P → P)
}.

(** The layout effect that runs when [props.messages] changes: the new
    flags, and the call of [window.scrollTo] when it makes one. *)
Definition layoutEffect (props : ChatUIInputPanelProps) (w : Window)
    (c : ChatScrollState) : ChatScrollState * option ScrollToOptions :=
  if skipNextHistoryUpdate c then
    ({| userHasScrolled := userHasScrolled c;
        skipNextScrollEvent := skipNextScrollEvent c;
        skipNextHistoryUpdate := false |}, None)
  else if negb (userHasScrolled c)
          && bool_decide (0 < length (default [] (messages props))) then
    ({| userHasScrolled := userHasScrolled c;
        skipNextScrollEvent := true;
        skipNextHistoryUpdate := skipNextHistoryUpdate c |},
     Some {| top := scrollHeight w + (1000 # 1); behavior := "instant" |})
  else (c, None).

(** [onSendMessage]: the callback is called with the text alone. *)
Definition onSendMessage (props : ChatUIInputPanelProps) (panel : PanelState)
    (c : ChatScrollState) (parent : P) : PanelState * ChatScrollState * P :=
  let c := {| userHasScrolled := false;
              skipNextScrollEvent := skipNextScrollEvent c;
              skipNextHistoryUpdate := skipNextHistoryUpdate c |} in
  let parent := match props_onSendMessage props with
                | Some callback => callback (inputText panel) None parent
                | None => parent
                end in
  ({| inputText := ""; panelSelectedFile := None |}, c, parent).

(** [!props.running && event.key === "Enter" && !event.shiftKey] *)
Definition sends_on_key (props : ChatUIInputPanelProps) (event : KeyboardEvent)
    : bool :=
  negb (default false (running props))
  && String.eqb (key event) "Enter" && negb (shiftKey event).

(** [onTextareaKeyDown]; the boolean says whether [preventDefault] was
    called. *)
Definition onTextareaKeyDown (props : ChatUIInputPanelProps)
    (event : KeyboardEvent) (panel : PanelState) (c : ChatScrollState)
    (parent : P) : PanelState * ChatScrollState * P * bool :=
  if sends_on_key props event
  then (onSendMessage props panel c parent, true)
  else (panel, c, parent, false).

(** The state on the screen: the panel's own, the file chooser's, and the
    scroll flags. *)
Record UI : Type := {
  panel : PanelState;
  upload : State;
  scroll : ChatScrollState
}.

(** What can happen to the panel. *)
Inductive Event : Type :=
| FileInputChange (files : option (list File))
| RemoveFileClick
| TextareaChange (value : string)
| TextareaKeyDown (event : KeyboardEvent)
| SendClick
| WindowScroll (w : Window)
| MessagesChange (w : Window).

(** The handler the panel has wired to each event; the file chooser is
    rendered with [panel_props]. An event stands for its handler running:
    the send button is disabled while [running] or when the text is blank,
    so of the [SendClick]s here only some can happen. *)
Definition step (props : ChatUIInputPanelProps) (e : Event) (ui : UI)
    (parent : P) : UI * P :=
  match e with
  | FileInputChange files =>
    let '(st, pn) := handleFileChange number_to_string panel_props files
                       (upload ui) (panel ui) in
    ({| panel := pn; upload := st; scroll := scroll ui |}, parent)
  | RemoveFileClick =>
    let '(st, pn) := handleRemoveFile panel_props (upload ui) (panel ui) in
    ({| panel := pn; upload := st; scroll := scroll ui |}, parent)
  | TextareaChange value =>
    ({| panel := {| inputText := value;
                    panelSelectedFile := panelSelectedFile (panel ui) |};
        upload := upload ui; scroll := scroll ui |}, parent)
  | TextareaKeyDown event =>
    let '(pn, c, parent, _) :=
      onTextareaKeyDown props event (panel ui) (scroll ui) parent in
    ({| panel := pn; upload := upload ui; scroll := c |}, parent)
  | SendClick =>
    let '(pn, c, parent) := onSendMessage props (panel ui) (scroll ui) parent in
    ({| panel := pn; upload := upload ui; scroll := c |}, parent)
  | WindowScroll w =>
    ({| panel := panel ui; upload := upload ui;
        scroll := onWindowScroll w (scroll ui) |}, parent)
  | MessagesChange w =>
    ({| panel := panel ui; upload := upload ui;
        scroll := (layoutEffect props w (scroll ui)).1 |}, parent)
  end.


(** Whether the event makes the panel send. *)
Definition sends (props : ChatUIInputPanelProps) (e : Event) : bool :=
  match e with
  | SendClick => true
  | TextareaKeyDown event => sends_on_key props event
  | _ => false
  end.

End Panel.

Arguments ChatUIInputPanelProps P ChatMessage : clear implicits.

(** The file chooser and the panel show the same selected file. *)
Definition in_step (ui : UI) : Prop :=
  selectedFile (upload ui) = panelSelectedFile (panel ui).

(** A parent that records the arguments of every call of [onSendMessage]. *)
Definition record_call (message : string) (file : option File)
    (calls : list (string * option File)) : list (string * option File) :=
  calls ++ [(message, file)].

(** The properties of a render whose parent records the calls. *)
Definition recording_props {ChatMessage : Type}
    (messages : option (list ChatMessage))
    : ChatUIInputPanelProps (list (string * option File)) ChatMessage :=
  {| inputPlaceholderText := None;
     sendButtonText := None;
     running := None;
     messages := messages;
     props_onSendMessage := Some record_call |}.

(** The panel as it is first rendered, with the scroll flags clear. *)
Definition empty_ui : UI :=
  {| panel := {| inputText := ""; panelSelectedFile := None |};
     upload := {| selectedFile := None; error := "" |};
     scroll := {| userHasScrolled := false; skipNextScrollEvent := false;
                  skipNextHistoryUpdate := false |} |}.

(** The panel with a text typed and [diagram.png] chosen. *)
Definition selected_ui : UI :=
  {| panel := {| inputText := "draw this";
                 panelSelectedFile :=
                   Some {| name := "diagram.png"; size := 2048 |} |};
     upload := {| selectedFile := Some {| name := "diagram.png"; size := 2048 |};
                  error := "" |};
     scroll := scroll empty_ui |}.

(** The flags of a user who has scrolled away from the end. *)
Definition scrolled_away : ChatScrollState :=
  {| userHasScrolled := true; skipNextScrollEvent := false;
     skipNextHistoryUpdate := false |}.

End ChatPanel.

(** ** [src/config/amplify-config.ts] and [src/services/api-service.ts] *)

Module Api.
Import FileUpload.

(** One REST API of the Amplify configuration. *)
Record RestApi : Type := { endpoint : string; region : string }.

(** The object given to [Amplify.configure]: [API.REST], by API name. *)
Record ResourcesConfig : Type := { REST : gmap string RestApi }.

(** Loading the module throws an [Error] with a message, or configures. *)
Inductive Loaded : Type :=
| Thrown (message : string)
| Configured (config : ResourcesConfig).

(** [!value] for a variable of [process.env]: absent or the empty string. *)
Definition not_set (value : option string) : bool :=
  match value with
  | None => true
  | Some s => String.eqb s ""
  end.

(** The module body of [amplify-config.ts] over [process.env]. *)
Definition configure (env : gmap string string) : Loaded :=
  if not_set (env !! "REACT_APP_API_ENDPOINT") then
    Thrown "REACT_APP_API_ENDPOINT is not defined"
  else if not_set (env !! "REACT_APP_AWS_REGION") then
    Thrown "REACT_APP_AWS_REGION is not defined"
  else
    Configured {| REST := {[ "chatApi" :=
      {| endpoint := default "" (env !! "REACT_APP_API_ENDPOINT");
         region := default "" (env !! "REACT_APP_AWS_REGION") |} ]} |}.

(** A [FormData]: its entries in the order they were appended; a name can
    occur more than once. *)
Inductive FormDataEntryValue : Type :=
| Text (value : string)
| Blob (file : File).

Abbreviation FormData := (list (string * FormDataEntryValue)).

Definition append (name : string) (value : FormDataEntryValue)
    (formData : FormData) : FormData :=
  formData ++ [(name, value)].

Definition getAll (name : string) (formData : FormData)
    : list FormDataEntryValue :=
  (filter (λ entry, entry.1 = name) formData).*2.

(** The argument of Amplify's [post]. *)
Record PostInput : Type := {
  apiName : string;
  path : string;
  body : FormData
}.

Section Service.

(** [post] returns a response or throws. *)
Context {Response Error : Type}.
Variable post : PostInput → Response + Error.

(** [ChatApiService.sendChatMessage]: the response, or the error thrown
    again, and what was written with [console.error]. *)
Definition sendChatMessage (message : string) (files : list File)
    : (Response + Error) * list (string * Error) :=
  let formData := append "message" (Text message) [] in
  let formData :=
    foldl (λ formData file, append "files" (Blob file) formData)
          formData files in
  match post {| apiName := "chatApi"; path := "/upload"; body := formData |} with
  | inl response => (inl response, [])
  | inr error => (inr error, [("Error sending message:", error)])
  end.

End Service.

End Api.

(** ** The index creation function of [BedrockStack] *)

Module IndexCreation.

(** The rest of [s] after [pattern], when [s] starts with it. *)
Fixpoint after_prefix (pattern s : string) : option string :=
  match pattern, s with
  | EmptyString, _ => Some s
  | String a pattern', String b s' =>
    if Ascii.eqb a b then after_prefix pattern' s' else None
  | String _ _, EmptyString => None
  end.

(** [s.replace(pattern, replacement)] for a string [pattern] and a
    [replacement] without [$]: the first place at which [pattern] occurs
    is replaced. *)
Fixpoint replace (pattern replacement s : string) : string :=
  match after_prefix pattern s with
  | Some rest => replacement +:+ rest
  | None =>
    match s with
    | EmptyString => EmptyString
    | String c rest => String c (replace pattern replacement rest)
    end
  end.

Record RequestOptions : Type := {
  hostname : string;
  port : Z;
  path : string;
  method : string;
  headers : list (string * string)
}.

Definition indexName : string := "bedrock-kb-index".

(** The [options] the handler gives to [https.request] for the event's
    [endpoint]. *)
Definition options (endpoint : string) : RequestOptions :=
  {| hostname := replace "https://" "" endpoint;
     port := 443;
     path := "/" +:+ indexName;
     method := "PUT";
     headers := [("Content-Type", "application/json")] |}.

End IndexCreation.

(** ** [run-container.sh]: the command line of the container script *)

Module RunContainer.

(** The shell variables the arguments set. *)
Record Settings : Type := {
  PROFILE : string;
  ROLE_ARN : string;
  BUCKET_NAME : string;
  REBUILD : bool;
  PORT : string;
  PRINT_SCHEMA : bool
}.

(** Their values before the arguments are read. *)
Definition defaults : Settings :=
  {| PROFILE := "default"; ROLE_ARN := ""; BUCKET_NAME := "";
     REBUILD := false; PORT := "8080"; PRINT_SCHEMA := false |}.

(** The script goes on, exits with a status after the lines it has
    printed, or is still in its loop when [fuel] iterations are used up. *)
Inductive outcome (A : Type) : Type :=
| Continue (a : A)
| Exit (status : nat) (stdout : list string)
| OutOfFuel.
Arguments Continue {A} a.
Arguments Exit {A} status stdout.
Arguments OutOfFuel {A}.

(** [print_usage], which ends the script with status 1; [script] is [$0]. *)
Definition print_usage {A : Type} (script : string) (stdout : list string)
    : outcome A :=
  Exit 1 (stdout ++
    [ "Usage: " +:+ script +:+
        " -b BUCKET_NAME [-p PROFILE] [-r ROLE_ARN] [-P PORT] [--rebuild] [--print-schema]";
      "  -b BUCKET_NAME  : S3 bucket name for storing PDFs (required)";
      "  -p PROFILE      : AWS CLI profile to use (default: default)";
      "  -r ROLE_ARN     : IAM role ARN to assume (optional)";
      "  -P PORT         : Port to expose (default: 8080)";
      "  --rebuild       : Force rebuild of the Docker image";
      "  --print-schema  : Print OpenAPI schema on startup for Bedrock Agent configuration" ]).

(** ["$2"]: the second positional parameter, empty when there is none. *)
Definition second (args : list string) : string := default "" (args !! 1).

(** [shift n]: when fewer than [n] positional parameters are left the
    command fails and leaves them all. *)
Definition shift (n : nat) (args : list string) : list string :=
  if decide (n ≤ length args) then drop n args else args.

(** The [while [[ $# -gt 0 ]]] loop over the positional parameters. *)
Fixpoint parse (fuel : nat) (script : string) (args : list string)
    (st : Settings) : outcome Settings :=
  match fuel with
  | O => OutOfFuel
  | S fuel' =>
    match args with
    | [] => Continue st
    | arg :: _ =>
      if String.eqb arg "-p" then
        parse fuel' script (shift 2 args)
          {| PROFILE := second args; ROLE_ARN := ROLE_ARN st;
             BUCKET_NAME := BUCKET_NAME st; REBUILD := REBUILD st;
             PORT := PORT st; PRINT_SCHEMA := PRINT_SCHEMA st |}
      else if String.eqb arg "-r" then
        parse fuel' script (shift 2 args)
          {| PROFILE := PROFILE st; ROLE_ARN := second args;
             BUCKET_NAME := BUCKET_NAME st; REBUILD := REBUILD st;
             PORT := PORT st; PRINT_SCHEMA := PRINT_SCHEMA st |}
      else if String.eqb arg "-b" then
        parse fuel' script (shift 2 args)
          {| PROFILE := PROFILE st; ROLE_ARN := ROLE_ARN st;
             BUCKET_NAME := second args; REBUILD := REBUILD st;
             PORT := PORT st; PRINT_SCHEMA := PRINT_SCHEMA st |}
      else if String.eqb arg "-P" then
        parse fuel' script (shift 2 args)
          {| PROFILE := PROFILE st; ROLE_ARN := ROLE_ARN st;
             BUCKET_NAME := BUCKET_NAME st; REBUILD := REBUILD st;
             PORT := second args; PRINT_SCHEMA := PRINT_SCHEMA st |}
      else if String.eqb arg "--rebuild" then
        parse fuel' script (shift 1 args)
          {| PROFILE := PROFILE st; ROLE_ARN := ROLE_ARN st;
             BUCKET_NAME := BUCKET_NAME st; REBUILD := true;
             PORT := PORT st; PRINT_SCHEMA := PRINT_SCHEMA st |}
      else if String.eqb arg "--print-schema" then
        parse fuel' script (shift 1 args)
          {| PROFILE := PROFILE st; ROLE_ARN := ROLE_ARN st;
             BUCKET_NAME := BUCKET_NAME st; REBUILD := REBUILD st;
             PORT := PORT st; PRINT_SCHEMA := true |}
      else print_usage script ["Unknown option: " +:+ arg]
    end
  end.


(** A complete option: a flag, or a name with its value. *)
Inductive Option : Type :=
| Profile (value : string)
| RoleArn (value : string)
| BucketName (value : string)
| Port (value : string)
| Rebuild
| PrintSchema.

(** The words that spell an option on the command line. *)
Definition words (o : Option) : list string :=
  match o with
  | Profile value => ["-p"; value]
  | RoleArn value => ["-r"; value]
  | BucketName value => ["-b"; value]
  | Port value => ["-P"; value]
  | Rebuild => ["--rebuild"]
  | PrintSchema => ["--print-schema"]
  end.

(** What an option sets. *)
Definition set (st : Settings) (o : Option) : Settings :=
  match o with
  | Profile value =>
    {| PROFILE := value; ROLE_ARN := ROLE_ARN st;
       BUCKET_NAME := BUCKET_NAME st; REBUILD := REBUILD st;
       PORT := PORT st; PRINT_SCHEMA := PRINT_SCHEMA st |}
  | RoleArn value =>
    {| PROFILE := PROFILE st; ROLE_ARN := value;
       BUCKET_NAME := BUCKET_NAME st; REBUILD := REBUILD st;
       PORT := PORT st; PRINT_SCHEMA := PRINT_SCHEMA st |}
  | BucketName value =>
    {| PROFILE := PROFILE st; ROLE_ARN := ROLE_ARN st;
       BUCKET_NAME := value; REBUILD := REBUILD st;
       PORT := PORT st; PRINT_SCHEMA := PRINT_SCHEMA st |}
  | Port value =>
    {| PROFILE := PROFILE st; ROLE_ARN := ROLE_ARN st;
       BUCKET_NAME := BUCKET_NAME st; REBUILD := REBUILD st;
       PORT := value; PRINT_SCHEMA := PRINT_SCHEMA st |}
  | Rebuild =>
    {| PROFILE := PROFILE st; ROLE_ARN := ROLE_ARN st;
       BUCKET_NAME := BUCKET_NAME st; REBUILD := true;
       PORT := PORT st; PRINT_SCHEMA := PRINT_SCHEMA st |}
  | PrintSchema =>
    {| PROFILE := PROFILE st; ROLE_ARN := ROLE_ARN st;
       BUCKET_NAME := BUCKET_NAME st; REBUILD := REBUILD st;
       PORT := PORT st; PRINT_SCHEMA := true |}
  end.


(** The names that take a value. *)
Definition takes_value (arg : string) : bool :=
  bool_decide (arg ∈ ["-p"; "-r"; "-b"; "-P"]).


End RunContainer.

(** ** The S3 buckets declared by the CDK stacks *)

Module Cdk.

(** [cdk.Duration], in days. *)
Inductive Duration : Type := days (n : nat).

Definition toDays (d : Duration) : nat := match d with days n => n end.

Inductive RemovalPolicy : Type := DESTROY | RETAIN.
Inductive BucketEncryption : Type := S3_MANAGED | UNENCRYPTED.
Inductive BlockPublicAccess : Type := BLOCK_ALL | BLOCK_ACLS.

(** [s3.LifecycleRule]: only [expiration] is ever set. *)
Record LifecycleRule : Type := { expiration : option Duration }.

(** [s3.BucketProps]: the properties the stacks set; an absent property is
    [None]. *)
Record BucketProps : Type := {
  removalPolicy : option RemovalPolicy;
  autoDeleteObjects : option bool;
  blockPublicAccess : option BlockPublicAccess;
  encryption : option BucketEncryption;
  enforceSSL : option bool;
  versioned : option bool;
  lifecycleRules : option (list LifecycleRule)
}.

(** [DiagramGeneratorStack]: [diagramBucket]. *)
Definition diagramBucket : BucketProps :=
  {| removalPolicy := Some DESTROY;
     autoDeleteObjects := Some true;
     blockPublicAccess := None;
     encryption := Some S3_MANAGED;
     enforceSSL := Some true;
     versioned := Some true;
     lifecycleRules := Some [ {| expiration := Some (days 7) |} ] |}.

(** [BedrockStack] (the agent stack): [outputBucket], "for storing
    generated diagrams and PDFs". *)
Definition outputBucket : BucketProps :=
  {| removalPolicy := Some DESTROY;
     autoDeleteObjects := Some true;
     blockPublicAccess := Some BLOCK_ALL;
     encryption := None;
     enforceSSL := None;
     versioned := None;
     lifecycleRules := None |}.

Inductive Bucket : Type := DiagramBucket | OutputBucket.

Definition bucket_props (b : Bucket) : BucketProps :=
  match b with
  | DiagramBucket => diagramBucket
  | OutputBucket => outputBucket
  end.

(** A Lambda function of a stack: where its code comes from, and the
    entries of its environment that name a bucket. *)
Record LambdaFunction : Type := {
  code : string;
  environment : list (string * Bucket)
}.

(** [BedrockStack]: the two handlers, both given [outputBucket]. *)
Definition diagramGenerator : LambdaFunction :=
  {| code := "lambda/generate_architecture_diagram";
     environment := [("S3_BUCKET", OutputBucket)] |}.

Definition pdfGenerator : LambdaFunction :=
  {| code := "lambda/generate_pdf_documentation";
     environment := [("OUTPUT_BUCKET", OutputBucket)] |}.

(** [DiagramGeneratorStack]: its function runs other code,
    [lambda/diagram-lambda]. *)
Definition diagramLambda : LambdaFunction :=
  {| code := "lambda/diagram-lambda";
     environment := [("S3_BUCKET_NAME", DiagramBucket);
                     ("BUCKET_NAME", DiagramBucket)] |}.

(** The buckets a function is configured to store into. *)
Definition buckets_of (f : LambdaFunction) : list Bucket :=
  (environment f).*2.

(** S3 lifecycle: an object may be expired once its age reaches the
    [expiration] of some rule of its bucket. The retention window is the
    shortest of them; a bucket with no such rule keeps objects for ever. *)
Definition expirations (b : BucketProps) : list nat :=
  omap (λ rule, toDays <$> expiration rule) (default [] (lifecycleRules b)).

Definition retention_days (b : BucketProps) : option nat :=
  match expirations b with
  | [] => None
  | d :: ds => Some (foldr Nat.min d ds)
  end.

Definition may_expire (b : BucketProps) (age_days : nat) : bool :=
  match retention_days b with
  | Some d => bool_decide (d ≤ age_days)
  | None => false
  end.

(** The storage layer enforces a retention window of [window] days on what
    the function stores: every bucket it stores into has that window. *)
Definition retention_enforced (f : LambdaFunction) (window : nat) : Prop :=
  ∀ b, b ∈ buckets_of f → retention_days (bucket_props b) = Some window.

End Cdk.

(** ** The generation handlers *)

Module Handlers.

(** Modelled from the spec: the error taxonomy of section 7; the handlers'
    source ([app.py] of either Lambda) is not among the sources. *)
Inductive Error : Type :=
| InvalidInput
| RenderFailure
| StorageFailure
| NotFound
| UpstreamTimeout.

(** Modelled from the spec: a StoredArtifact of section 3 (content bytes,
    content type, last-modified time; the byte size is the length of the
    content). The object store itself is a service outside the sources. *)
Record StoredArtifact : Type := {
  content : list Byte.byte;
  content_type : string;
  last_modified : nat
}.

(** Modelled from the spec: the state the handlers share with nothing but
    the object store: the stored artifacts by reference, and the supply of
    identifiers, "generated fresh per call and never revised". *)
Record World : Type := {
  objects : gmap string StoredArtifact;
  next_id : nat
}.

(** Modelled from the spec: the world before any call: nothing stored, no
    identifier handed out. *)
Definition initial : World := {| objects := ∅; next_id := 0 |}.

(** Modelled from the spec: the reference of the [n]-th generated
    identifier, an opaque locator string. *)
Definition locator (n : nat) : string := "artifact-" +:+ pretty n.

(** Modelled from the spec: what a call finds around it: the time, and
    whether the object store accepts a write (a write failure is the
    StorageFailure of section 7). *)
Record Env : Type := {
  now : nat;
  store_writable : bool;
  credentials_valid : bool
}.

(** Modelled from the spec: the calls a handler makes to its
    collaborators (section 6): the three object-store operations and the
    rendering engine. *)
Inductive Effect : Type :=
| Put (reference : string)
| Get (reference : string)
| Head (reference : string)
| Render.

(** A handler run: its outcome (an error of the taxonomy or an answer), the
    world it leaves, and the calls it made, oldest first. *)
Record Run (A : Type) : Type := {
  outcome : Error + A;
  world : World;
  effects : list Effect
}.
Arguments outcome {A} _.
Arguments world {A} _.
Arguments effects {A} _.

(** Handlers are written in the monad of runs from a world: [mret] makes
    no call, [≫=] threads the world, appends the calls and stops at the
    first error. *)
Definition M (A : Type) : Type := World → Run A.

#[global]
Instance M_ret : MRet M := λ A a w,
  {| outcome := inr a; world := w; effects := [] |}.

#[global]
Instance M_bind : MBind M := λ A B k m w,
  let r := m w in
  match outcome r with
  | inl e => {| outcome := inl e; world := world r; effects := effects r |}
  | inr a =>
    let r' := k a (world r) in
    {| outcome := outcome r'; world := world r';
       effects := effects r ++ effects r' |}
  end.

#[global]
Instance M_fmap : FMap M := λ A B f m, a ← m; mret (f a).

Definition fail {A : Type} (e : Error) : M A := λ w,
  {| outcome := inl e; world := w; effects := [] |}.

(** Modelled from the spec: "under a newly generated key". *)
Definition fresh_reference : M string := λ w,
  {| outcome := inr (locator (next_id w));
     world := {| objects := objects w; next_id := S (next_id w) |};
     effects := [] |}.

(** Modelled from the spec: [put(key, bytes, contentType) -> void]; a
    refused write is reported as StorageFailure and stores nothing. *)
Definition put (env : Env) (reference : string) (bytes : list Byte.byte)
    (contentType : string) : M unit := λ w,
  if store_writable env then
    {| outcome := inr ();
       world := {| objects := <[reference :=
                                  {| content := bytes;
                                     content_type := contentType;
                                     last_modified := now env |}]> (objects w);
                   next_id := next_id w |};
       effects := [Put reference] |}
  else
    {| outcome := inl StorageFailure; world := w; effects := [Put reference] |}.

(** Modelled from the spec: [get(key) -> bytes|NotFound]. *)
Definition get (reference : string) : M (option (list Byte.byte)) := λ w,
  {| outcome := inr (content <$> objects w !! reference);
     world := w; effects := [Get reference] |}.

(** Modelled from the spec: [head(key) -> metadata|NotFound]. *)
Definition head (reference : string) : M (option StoredArtifact) := λ w,
  {| outcome := inr (objects w !! reference);
     world := w; effects := [Head reference] |}.

(** Modelled from the spec: one call of a rendering engine,
    [render(spec) -> bytes | RenderFailure]. *)
Definition render (rendered : option (list Byte.byte)) : M (list Byte.byte) := λ w,
  {| outcome := match rendered with
                | Some bytes => inr bytes
                | None => inl RenderFailure
                end;
     world := w; effects := [Render] |}.

(** Modelled from the spec: the record of Contract B. *)
Record Detail : Type := {
  reference : string;
  contentType : string;
  sizeBytes : nat;
  lastModified : nat;
  detail_status : string
}.

(** Modelled from the spec: the record of Contract C. *)
Record HealthReport : Type := {
  status : string;
  timestamp : nat;
  credentialsValid : bool;
  bucketConfigured : bool
}.

(** Modelled from the spec: what a deployment fixes: the two external
    rendering engines, black boxes (the graph-layout renderer, description
    and component list to image bytes; the document-layout renderer,
    Markdown and an optional embedded image to document bytes; [None] is a
    rendering failure), how the health check names its status (the spec
    does not say), and the target bucket when one is configured. *)
Record Engines : Type := {
  render_diagram : string → list string → option (list Byte.byte);
  render_document :
    string → option (list Byte.byte) → option (list Byte.byte);
  health_status : bool → bool → string;
  output_bucket : option string
}.

Section WithEngines.

Context (engines : Engines).

(** Modelled from the spec: section 4.1, the Diagram Generation Handler:
    [services] must be non-empty; the diagram is rendered, uploaded under a
    newly generated key, and the reference returned. *)
Definition generateDiagram (env : Env) (description : string)
    (services : list string) : M string :=
  match services with
  | [] => fail InvalidInput
  | _ =>
    image ← render (render_diagram engines description services);
    diagramUrl ← fresh_reference;
    _ ← put env diagramUrl image "image/png";
    mret diagramUrl
  end.

(** Modelled from the spec: section 4.2, Contract A: the referenced
    diagram is fetched and embedded when it resolves and skipped when it
    does not; the document is rendered, uploaded, and success returned. *)
Definition generatePDFDocumentation (env : Env) (documentation : string)
    (linkToArchitecture : option string) : M bool :=
  diagram ← match linkToArchitecture with
            | Some link => get link
            | None => mret None
            end;
  pdf ← render (render_document engines documentation diagram);
  s3Uri ← fresh_reference;
  _ ← put env s3Uri pdf "application/pdf";
  mret true.

(** Modelled from the spec: section 4.2, Contract B, the detail lookup:
    storage metadata of the reference, or NotFound. *)
Definition getPDFDocumentationDetail (s3Uri : string) : M Detail :=
  metadata ← head s3Uri;
  match metadata with
  | Some artifact =>
    mret {| reference := s3Uri;
            contentType := content_type artifact;
            sizeBytes := length (content artifact);
            lastModified := last_modified artifact;
            detail_status := "AVAILABLE" |}
  | None => fail NotFound
  end.

(** Modelled from the spec: section 4.2, Contract C, the health check. *)
Definition health (env : Env) : M HealthReport :=
  mret {| status := health_status engines (credentials_valid env)
                       (bool_decide (is_Some (output_bucket engines)));
          timestamp := now env;
          credentialsValid := credentials_valid env;
          bucketConfigured := bool_decide (is_Some (output_bucket engines)) |}.

(** Modelled from the spec: the four operations of section 6 as requests,
    and what they answer. *)
Inductive Request : Type :=
| GenerateDiagram (description : string) (services : list string)
| GeneratePDFDocumentation (documentation : string)
                           (linkToArchitecture : option string)
| GetPDFDocumentationDetail (s3Uri : string)
| Health.

Inductive Response : Type :=
| DiagramResponse (diagramUrl : string)
| PDFResponse (success : bool)
| DetailResponse (detail : Detail)
| HealthResponse (report : HealthReport).

(** Modelled from the spec: one request served. *)
Definition handle (env : Env) (request : Request) : M Response :=
  match request with
  | GenerateDiagram description services =>
    DiagramResponse <$> generateDiagram env description services
  | GeneratePDFDocumentation documentation linkToArchitecture =>
    PDFResponse <$> generatePDFDocumentation env documentation linkToArchitecture
  | GetPDFDocumentationDetail s3Uri =>
    DetailResponse <$> getPDFDocumentationDetail s3Uri
  | Health => HealthResponse <$> health env
  end.

(** Modelled from the spec: the worlds the handlers can bring about from
    [initial], each request in whatever environment it finds, with every
    call made to the collaborators on the way, oldest first. *)
Inductive history : list Effect → World → Prop :=
| history_initial : history [] initial
| history_call (past : list Effect) (w : World) (env : Env) (request : Request) :
    history past w →
    history (past ++ effects (handle env request w))
            (world (handle env request w)).

End WithEngines.



(** Engines for examples: the diagram renderer knows three components and
    draws one byte per component after a header byte; the document renderer
    always succeeds. *)
Definition known_component (service : string) : bool :=
  bool_decide (service ∈ ["ELB"; "EC2"; "RDS"]).

Definition example_engines : Engines :=
  {| render_diagram := λ description services,
       if forallb known_component services
       then Some (Byte.x89 :: ((λ _, Byte.x50) <$> services))
       else None;
     render_document := λ documentation diagram,
       Some (Byte.x25 :: default [] diagram);
     health_status := λ credentials bucket,
       if credentials && bucket then "healthy" else "unhealthy";
     output_bucket := Some "pdf-documentation-output" |}.

Definition example_env : Env :=
  {| now := 1; store_writable := true; credentials_valid := true |}.

(** The world after one diagram was generated in the initial world. *)
Definition one_diagram : World :=
  world (handle example_engines example_env
           (GenerateDiagram "three-tier web app" ["ELB"; "EC2"; "RDS"]) initial).

End Handlers.

(* ===================================================================== *)
(** * Part II: results                                                    *)
(* ===================================================================== *)

(** ** [copyDirRecursive] *)

Module FsFacts.
Import Fs.

Section Paths.
Implicit Types (p q s t r : list string) (n : string) (fs : FS).

Lemma dirname_join p n : dirname (join p n) = p.
Proof.
  unfold dirname, join. rewrite length_app. simpl.
  replace (length p + 1 - 1) with (length p) by lia.
  apply take_app_length.
Qed.

Lemma join_not_nil p n : join p n ≠ [].
Proof. unfold join. by destruct p. Qed.

Lemma child_name_Some p q n : child_name p q = Some n ↔ q = join p n.
Proof.
  unfold child_name, join. split.
  - destruct (drop (length p) q) as [|a [|b l]] eqn:Hd; try done.
    case_bool_decide as Ht; [|done]. intros [= ->].
    by rewrite <- (take_drop (length p) q), Hd, Ht.
  - intros ->. rewrite drop_app_length, take_app_length.
    by rewrite bool_decide_eq_true_2.
Qed.

Lemma prefix_join_inv t s n :
  t `prefix_of` join s n → t `prefix_of` s ∨ t = join s n.
Proof.
  unfold join. intros [k Hk].
  destruct k as [|b k] using rev_ind.
  - right. by rewrite app_nil_r in Hk.
  - left. rewrite app_assoc in Hk. apply app_inj_tail in Hk as [-> _].
    by apply prefix_app_r.
Qed.

Lemma prefix_join_l s n : s `prefix_of` join s n.
Proof. by apply prefix_app_r. Qed.

Lemma disjoint_join s t n : disjoint s t → disjoint (join s n) (join t n).
Proof.
  intros [Hst Hts]. split; intros H.
  - apply prefix_join_inv in H as [H|H].
    + apply Hst. by etrans; [apply prefix_join_l|].
    + apply app_inj_tail in H as [-> _]. by apply Hst.
  - apply prefix_join_inv in H as [H|H].
    + apply Hts. by etrans; [apply prefix_join_l|].
    + apply app_inj_tail in H as [-> _]. by apply Hts.
Qed.

Lemma disjoint_not_prefix_app s t r : disjoint s t → ¬ t `prefix_of` s ++ r.
Proof.
  intros [Hst Hts] H.
  destruct (prefix_weak_total t s (s ++ r)) as [?|?];
    [done|by apply prefix_app_r|done|done].
Qed.

Lemma join_app s n r : join s n ++ r = s ++ n :: r.
Proof. unfold join. by rewrite <- app_assoc. Qed.

Lemma join_ne_self p n : join p n ≠ p.
Proof.
  intros H. apply (prefix_snoc_not p n). unfold join in H. by rewrite H.
Qed.

End Paths.

Section Calls.
Implicit Types (p q s t r : list string) (n : string) (fs : FS).

Lemma NoDup_omap_inj {A B} (f : A → option B) (l : list A) :
  (∀ x y b, x ∈ l → y ∈ l → f x = Some b → f y = Some b → x = y) →
  NoDup l → NoDup (omap f l).
Proof.
  intros Hinj Hl. induction Hl as [|x l Hx Hl IH]; simpl; [constructor|].
  assert (NoDup (omap f l)) as IH'.
  { apply IH. intros y z b Hy Hz. apply Hinj; by right. }
  destruct (f x) as [b|] eqn:Hfx; [|done].
  constructor; [|done].
  intros (y & Hy & Hfy)%list_elem_of_omap.
  rewrite (Hinj x y b) in Hx; [done|by left|by right|done|done].
Qed.

Lemma readdirSync_Ok p fs files :
  readdirSync p fs = Ok files →
  fs !! p = Some Directory ∧ NoDup files ∧
  ∀ n, n ∈ files ↔ is_Some (fs !! join p n).
Proof.
  unfold readdirSync. destruct (fs !! p) as [[d|]|] eqn:Hp; try done.
  intros [= <-]. split; [done|]. split.
  - apply NoDup_omap_inj; [|apply NoDup_map_to_list].
    intros [q1 e1] [q2 e2] b Hin1 Hin2 H1%child_name_Some H2%child_name_Some.
    simpl in *. subst q1 q2.
    apply elem_of_map_to_list in Hin1, Hin2. congruence.
  - intros n. rewrite list_elem_of_omap. split.
    + intros ([q e] & Hin & Hq%child_name_Some). simpl in Hq. subst q.
      apply elem_of_map_to_list in Hin. by exists e.
    + intros [e He]. exists (join p n, e). split.
      * by apply elem_of_map_to_list.
      * by apply child_name_Some.
Qed.

Lemma readdirSync_Directory p fs :
  fs !! p = Some Directory → ∃ files, readdirSync p fs = Ok files.
Proof. unfold readdirSync. intros ->. eauto. Qed.

Lemma mkdirSync_Ok p fs fs' :
  mkdirSync p fs = Ok fs' →
  fs !! p = None ∧ p ≠ [] ∧ fs !! dirname p = Some Directory ∧
  fs' = <[p := Directory]> fs.
Proof.
  unfold mkdirSync. destruct (fs !! p); [done|].
  destruct p as [|a p]; [done|].
  destruct (fs !! dirname (a :: p)) as [[d|]|]; try done.
  by intros [= <-].
Qed.

Lemma copyFileSync_Ok s d fs fs' :
  copyFileSync s d fs = Ok fs' →
  ∃ data, fs !! s = Some (File data) ∧ fs !! d ≠ Some Directory ∧ d ≠ [] ∧
          fs !! dirname d = Some Directory ∧ fs' = <[d := File data]> fs.
Proof.
  unfold copyFileSync. destruct (fs !! s) as [[data|]|]; try done.
  intros H. exists data. split; [done|].
  destruct (fs !! d) as [[data'|]|] eqn:Hd; try done;
    (destruct d as [|a d]; [done|]);
    (destruct (fs !! dirname (a :: d)) as [[x|]|]; try done);
    injection H as <-; done.
Qed.

Lemma existsSync_true p fs : existsSync p fs = true ↔ is_Some (fs !! p).
Proof. unfold existsSync. apply bool_decide_eq_true. Qed.

Lemma for_of_inv (P : FS → Prop) files body fs fs' :
  P fs →
  (∀ file x y, file ∈ files → P x → body file x = Ok y → P y) →
  for_of files body fs = Ok fs' → P fs'.
Proof.
  revert fs. induction files as [|f files IH]; simpl; intros fs HP Hbody.
  - by intros [= <-].
  - destruct (body f fs) as [y| |] eqn:Hy; try done.
    apply IH.
    + eapply Hbody; [by left|done|done].
    + intros file x z Hin. apply Hbody. by right.
Qed.

(** What an iteration that returns has done. *)
Lemma body_Ok fuel s t n fs fs' :
  body fuel s t n fs = Ok fs' →
  (fs !! join s n = Some Directory ∧
   copyDirRecursive fuel (join s n) (join t n) fs = Ok fs') ∨
  (∃ data, fs !! join s n = Some (File data) ∧
   copyFileSync (join s n) (join t n) fs = Ok fs').
Proof.
  unfold body, mbind, result_bind, statSync.
  destruct (fs !! join s n) as [[data|]|]; simpl; try done; eauto.
Qed.

(** A call with stack left: the target is made sure of, the source is
    listed, and the loop runs. *)
Lemma copyDirRecursive_S fuel s t fs :
  copyDirRecursive (S fuel) s t fs =
  (fs1 ← (if negb (existsSync t fs) then mkdirSync t fs else Ok fs);
   files ← readdirSync s fs1;
   for_of files (body fuel s t) fs1).
Proof. reflexivity. Qed.

(** The first statement: the target directory is there afterwards, and
    nothing else changed. *)
Lemma ensure_target_Ok t fs fs1 :
  (if negb (existsSync t fs) then mkdirSync t fs else Ok fs) = Ok fs1 →
  is_Some (fs1 !! t) ∧ (∀ p, p ≠ t → fs1 !! p = fs !! p) ∧
  (fs !! t = None →
   fs1 !! t = Some Directory ∧ fs !! dirname t = Some Directory ∧ t ≠ []) ∧
  (is_Some (fs !! t) → fs1 = fs).
Proof.
  destruct (existsSync t fs) eqn:He; simpl.
  - intros [= <-]. apply existsSync_true in He.
    split; [done|]. split; [done|]. split; [|done].
    intros Hn. rewrite Hn in He. by destruct He.
  - intros (Hn & Hne & Hpar & ->)%mkdirSync_Ok.
    split; [rewrite lookup_insert_eq; eauto|].
    split; [intros p Hp; by rewrite lookup_insert_ne|].
    split; [intros _; by rewrite lookup_insert_eq|].
    rewrite Hn. by intros [? ?].
Qed.

(** Frame: a call that returns changed nothing outside its target. *)
Lemma copyDirRecursive_frame fuel s t fs fs' :
  copyDirRecursive fuel s t fs = Ok fs' →
  ∀ p, ¬ t `prefix_of` p → fs' !! p = fs !! p.
Proof.
  revert s t fs fs'. induction fuel as [|fuel IH]; intros s t fs fs'; [done|].
  rewrite copyDirRecursive_S. unfold mbind at 1, result_bind at 1.
  destruct (if negb (existsSync t fs) then _ else _) as [fs1| |] eqn:H1;
    try done.
  apply ensure_target_Ok in H1 as (_ & H1 & _).
  unfold mbind at 1, result_bind at 1.
  destruct (readdirSync s fs1) as [files| |]; try done.
  intros Hloop p Hp.
  rewrite <- (H1 p) by (intros ->; by apply Hp).
  revert Hloop p Hp.
  apply (for_of_inv (λ x, ∀ p, ¬ t `prefix_of` p → x !! p = fs1 !! p)); [done|].
  intros n x y _ Hx Hbody p Hp. rewrite <- Hx by done.
  assert (¬ join t n `prefix_of` p) as Hp'.
  { intros H. apply Hp. by etrans; [apply prefix_join_l|]. }
  apply body_Ok in Hbody as [[_ Hrec]|(data & _ & Hcp)].
  - by apply (IH _ _ _ _ Hrec).
  - apply copyFileSync_Ok in Hcp as (data' & _ & _ & _ & _ & ->).
    apply lookup_insert_ne. by intros <-.
Qed.

Lemma bind_Ok {A B} (r : result A) (k : A → result B) b :
  (r ≫= k) = Ok b ↔ ∃ a, r = Ok a ∧ k a = Ok b.
Proof.
  unfold mbind, result_bind. destruct r; split; try done; eauto.
  - by intros (a' & [= <-] & ?).
  - by intros (? & ? & ?).
  - by intros (? & ? & ?).
Qed.

End Calls.

Section WellFormed.
Implicit Types (p q s t r : list string) (n : string) (fs : FS).

Lemma wf_insert_dir fs p :
  wf fs → fs !! p = None → p ≠ [] → fs !! dirname p = Some Directory →
  wf (<[p := Directory]> fs).
Proof.
  intros Hwf Hp Hne Hpar q n Hq.
  destruct (decide (join q n = p)) as [<-|Hqp].
  - rewrite dirname_join in Hpar.
    rewrite lookup_insert_ne; [done|apply join_ne_self].
  - rewrite lookup_insert_ne in Hq by done.
    apply Hwf in Hq. rewrite lookup_insert_ne; [done|]. congruence.
Qed.

Lemma wf_insert_file fs d data :
  wf fs → fs !! d ≠ Some Directory → d ≠ [] →
  fs !! dirname d = Some Directory → wf (<[d := File data]> fs).
Proof.
  intros Hwf Hd Hne Hpar q n Hq.
  destruct (decide (join q n = d)) as [<-|Hqd].
  - rewrite dirname_join in Hpar.
    rewrite lookup_insert_ne; [done|apply join_ne_self].
  - rewrite lookup_insert_ne in Hq by done.
    apply Hwf in Hq. rewrite lookup_insert_ne; [done|]. congruence.
Qed.

Lemma wf_ancestor_dir fs p r :
  wf fs → r ≠ [] → is_Some (fs !! (p ++ r)) → fs !! p = Some Directory.
Proof.
  intros Hwf. induction r as [|a r IH] using rev_ind; [done|].
  intros _. rewrite app_assoc. intros H%Hwf.
  destruct (decide (r = [])) as [->|Hr].
  - by rewrite app_nil_r in H.
  - apply IH; eauto.
Qed.

Lemma wf_ancestor fs p r :
  wf fs → is_Some (fs !! (p ++ r)) → is_Some (fs !! p).
Proof.
  intros Hwf H. destruct (decide (r = [])) as [->|Hr].
  - by rewrite app_nil_r in H.
  - rewrite (wf_ancestor_dir fs p r); eauto.
Qed.

Lemma wf_file_leaf fs p r data :
  wf fs → fs !! p = Some (File data) → is_Some (fs !! (p ++ r)) → r = [].
Proof.
  intros Hwf Hp H. destruct (decide (r = [])) as [|Hr]; [done|].
  rewrite (wf_ancestor_dir fs p r) in Hp; done.
Qed.

(** A call that returns keeps the file system well formed. *)
Lemma copyDirRecursive_wf fuel s t fs fs' :
  wf fs → copyDirRecursive fuel s t fs = Ok fs' → wf fs'.
Proof.
  revert s t fs fs'.
  induction fuel as [|fuel IH]; intros s t fs fs' Hwf; [done|].
  rewrite copyDirRecursive_S. unfold mbind at 1, result_bind at 1.
  destruct (if negb (existsSync t fs) then _ else _) as [fs1| |] eqn:H1;
    try done.
  assert (wf fs1) as Hwf1.
  { destruct (existsSync t fs); simpl in H1.
    - by injection H1 as <-.
    - apply mkdirSync_Ok in H1 as (? & ? & ? & ->). by apply wf_insert_dir. }
  unfold mbind at 1, result_bind at 1.
  destruct (readdirSync s fs1) as [files| |]; try done.
  apply (for_of_inv wf); [done|].
  intros n x y _ Hx Hbody.
  apply body_Ok in Hbody as [[_ Hrec]|(data & _ & Hcp)].
  - by apply (IH _ _ _ _ Hx Hrec).
  - apply copyFileSync_Ok in Hcp as (data' & _ & ? & ? & ? & ->).
    by apply wf_insert_file.
Qed.

End WellFormed.

Section Copy.
Implicit Types (p q s t r : list string) (n : string) (fs : FS).

Lemma copyFileSync_succeeds s d fs data :
  fs !! s = Some (File data) → fs !! d ≠ Some Directory → d ≠ [] →
  fs !! dirname d = Some Directory →
  copyFileSync s d fs = Ok (<[d := File data]> fs).
Proof.
  unfold copyFileSync. intros -> Hd Hne ->.
  destruct (fs !! d) as [[x|]|]; try done; by destruct d.
Qed.

Lemma ensure_target_succeeds t fs :
  t ≠ [] → (fs !! t = None → fs !! dirname t = Some Directory) →
  ∃ fs1, (if negb (existsSync t fs) then mkdirSync t fs else Ok fs) = Ok fs1.
Proof.
  intros Hne Hpar. destruct (existsSync t fs) eqn:He; simpl; [eauto|].
  assert (fs !! t = None) as Hn.
  { apply eq_None_not_Some. intros H%existsSync_true. congruence. }
  unfold mkdirSync. rewrite Hn, (Hpar Hn). destruct t; [done|eauto].
Qed.

Lemma same_kind_File e data : same_kind (File data) e = true → e ≠ Directory.
Proof. by destruct e. Qed.

Lemma same_kind_Directory e : same_kind Directory e = true → e = Directory.
Proof. by destruct e. Qed.

Lemma join_prefix_cons t n m r : join t n `prefix_of` t ++ m :: r → n = m.
Proof.
  unfold join. intros H%prefix_app_inv. destruct H as [k Hk]. by injection Hk.
Qed.

(** One iteration: the entry [n] of the source is copied below [join t n]
    and nothing outside [join t n] changes. *)
Lemma body_copies k s t fs x n :
  copies_spec k →
  wf fs → disjoint s t → compatible fs s t → depth_below fs s (S k) →
  is_Some (fs !! join s n) →
  wf x → (∀ p, ¬ t `prefix_of` p → x !! p = fs !! p) →
  x !! t = Some Directory →
  (∀ r, x !! (t ++ n :: r) = fs !! (t ++ n :: r)) →
  ∃ y, body k s t n x = Ok y ∧ wf y ∧
       (∀ p, ¬ join t n `prefix_of` p → y !! p = x !! p) ∧
       (∀ r e, fs !! (s ++ n :: r) = Some e → y !! (t ++ n :: r) = Some e).
Proof.
  intros IH Hwf Hdis Hcompat Hdepth [e He] Hwfx Hsrc Ht Htgt.
  assert (∀ r, x !! (s ++ r) = fs !! (s ++ r)) as Hsrc'.
  { intros r. apply Hsrc. by apply disjoint_not_prefix_app. }
  assert (x !! join s n = Some e) as Hxe by (unfold join; by rewrite Hsrc').
  unfold body, statSync. rewrite Hxe. simpl.
  destruct e as [data|]; simpl.
  - (* a file *)
    assert (x !! join t n ≠ Some Directory) as Hnd.
    { unfold join. rewrite (Htgt []). intros He'.
      by apply (same_kind_File _ _ (Hcompat [n] _ _ He He')). }
    exists (<[join t n := File data]> x). split; [|split; [|split]].
    + apply copyFileSync_succeeds; auto using join_not_nil.
      by rewrite dirname_join.
    + apply wf_insert_file; auto using join_not_nil. by rewrite dirname_join.
    + intros p Hp. apply lookup_insert_ne. by intros <-.
    + intros r e' Hr.
      assert (r = []) as ->.
      { apply (wf_file_leaf fs (join s n) r data); [done..|].
        rewrite join_app. eauto. }
      unfold join in He. rewrite He in Hr. injection Hr as <-.
      apply lookup_insert_eq.
  - (* a directory *)
    destruct (IH (join s n) (join t n) x) as (y & Hy & Hcopied); try done.
    + by apply disjoint_join.
    + intros _. by rewrite dirname_join.
    + intros r e1 e2. rewrite !join_app, Hsrc', Htgt. apply Hcompat.
    + intros r. rewrite join_app, Hsrc'. intros H%Hdepth. simpl in H. lia.
    + exists y. split; [done|]. split; [by eapply copyDirRecursive_wf|].
      split; [by eapply copyDirRecursive_frame|].
      intros r e Hr. rewrite <- join_app. apply Hcopied.
      by rewrite join_app, Hsrc'.
Qed.

Lemma loop_copies k s t fs :
  copies_spec k →
  wf fs → disjoint s t → compatible fs s t → depth_below fs s (S k) →
  ∀ todo x,
    NoDup todo → (∀ n, n ∈ todo → is_Some (fs !! join s n)) →
    wf x → (∀ p, ¬ t `prefix_of` p → x !! p = fs !! p) →
    x !! t = Some Directory →
    (∀ n r, n ∈ todo → x !! (t ++ n :: r) = fs !! (t ++ n :: r)) →
    ∃ y, for_of todo (body k s t) x = Ok y ∧
         (∀ p, (∀ n, n ∈ todo → ¬ join t n `prefix_of` p) → y !! p = x !! p) ∧
         (∀ n r e, n ∈ todo → fs !! (s ++ n :: r) = Some e →
                   y !! (t ++ n :: r) = Some e).
Proof.
  intros IH Hwf Hdis Hcompat Hdepth.
  induction todo as [|n todo IHtodo]; intros x Hnd Hex Hwfx Hsrc Ht Htgt.
  - exists x. split; [done|]. split; [done|]. intros n r e Hn. by apply elem_of_nil in Hn.
  - apply NoDup_cons in Hnd as [Hn Hnd].
    destruct (body_copies k s t fs x n) as (x2 & Hx2 & Hwf2 & Hframe2 & Hcopied2);
      try done.
    { apply Hex. by left. }
    { intros r. apply Htgt. by left. }
    assert (∀ p, ¬ t `prefix_of` p → ¬ join t n `prefix_of` p) as Hout.
    { intros p Hp H. apply Hp. by etrans; [apply prefix_join_l|]. }
    destruct (IHtodo x2) as (y & Hy & Hframe & Hcopied); try done.
    { intros m Hm. apply Hex. by right. }
    { intros p Hp. rewrite Hframe2 by auto. by apply Hsrc. }
    { rewrite Hframe2; [done|]. intros H. by apply (prefix_snoc_not t n). }
    { intros m r Hm. rewrite Hframe2; [apply Htgt; by right|].
      intros ->%join_prefix_cons. done. }
    exists y. split; [simpl; by rewrite Hx2|]. split.
    + intros p Hp. rewrite Hframe; [apply Hframe2|].
      * apply Hp. by left.
      * intros m Hm. apply Hp. by right.
    + intros m r e [->|Hm]%elem_of_cons Hr.
      * rewrite Hframe; [by apply Hcopied2|].
        intros m Hm ->%join_prefix_cons. done.
      * by apply Hcopied.
Qed.

Lemma copyDirRecursive_copies_all fuel : copies_spec fuel.
Proof.
  induction fuel as [|k IH]; intros s t fs Hwf Hs Hdis Hpar Hcompat Hdepth.
  { specialize (Hdepth []). rewrite app_nil_r in Hdepth. apply Hdepth in Hs. lia. }
  assert (t ≠ []) as Hne.
  { intros ->. apply (proj2 Hdis). apply prefix_nil. }
  assert (s ≠ t) as Hst by (intros ->; by apply (proj1 Hdis)).
  destruct (ensure_target_succeeds t fs Hne Hpar) as [fs1 H1].
  rewrite copyDirRecursive_S, H1. simpl.
  pose proof H1 as (Hex1 & Hrest & Hnew & Hold)%ensure_target_Ok.
  assert (fs1 !! t = Some Directory) as Ht1.
  { destruct (fs !! t) as [e'|] eqn:Ht.
    - rewrite Hold by eauto. rewrite Ht. f_equal. apply same_kind_Directory.
      apply (Hcompat [] Directory e'); by rewrite app_nil_r.
    - by apply Hnew. }
  assert (wf fs1) as Hwf1.
  { destruct (fs !! t) as [e'|] eqn:Ht.
    - by rewrite Hold by eauto.
    - destruct (existsSync t fs) eqn:He.
      + apply existsSync_true in He. rewrite Ht in He. by destruct He.
      + simpl in H1. apply mkdirSync_Ok in H1 as (_ & _ & Hp & ->).
        by apply wf_insert_dir. }
  destruct (readdirSync_Directory s fs1) as [files Hfiles].
  { by rewrite Hrest. }
  rewrite Hfiles. simpl.
  apply readdirSync_Ok in Hfiles as (_ & Hnd & Hin).
  assert (∀ n, join s n ≠ t) as Hjoin.
  { intros n <-. apply (proj1 Hdis), prefix_join_l. }
  destruct (loop_copies k s t fs IH Hwf Hdis Hcompat Hdepth files fs1)
    as (y & Hy & Hframe & Hcopied); try done.
  { intros n Hn%Hin. by rewrite Hrest in Hn. }
  { intros p Hp. apply Hrest. intros ->. by apply Hp. }
  { intros n r _. apply Hrest. intros H.
    apply (prefix_snoc_not t n). rewrite <- H at 2.
    apply prefix_app, prefix_cons, prefix_nil. }
  exists y. split; [exact Hy|].
  intros [|n r] e Hr.
  - rewrite app_nil_r in *. rewrite Hframe.
    + congruence.
    + intros n _ H. by apply (prefix_snoc_not t n).
  - apply Hcopied; [|done]. apply Hin. rewrite Hrest by done.
    apply (wf_ancestor fs (join s n) r Hwf). rewrite join_app. eauto.
Qed.

End Copy.

Section Fuel.
Implicit Types (p q s t r : list string) (n : string) (fs : FS).

Lemma for_of_mono (files : list string)
    (body1 body2 : string → FS → result FS) fs fs' :
  (∀ n x y, body1 n x = Ok y → body2 n x = Ok y) →
  for_of files body1 fs = Ok fs' → for_of files body2 fs = Ok fs'.
Proof.
  intros Hbody. revert fs. induction files as [|n files IH]; intros fs; [done|].
  simpl. destruct (body1 n fs) as [y| |] eqn:Hy; try done.
  rewrite (Hbody _ _ _ Hy). apply IH.
Qed.

(** More stack never changes the result of a call that returned. *)
Lemma copyDirRecursive_fuel_S fuel s t fs fs' :
  copyDirRecursive fuel s t fs = Ok fs' →
  copyDirRecursive (S fuel) s t fs = Ok fs'.
Proof.
  revert s t fs fs'. induction fuel as [|fuel IH]; intros s t fs fs'; [done|].
  rewrite (copyDirRecursive_S (S fuel)), (copyDirRecursive_S fuel).
  intros (fs1 & H1 & (files & Hfiles & Hloop)%bind_Ok)%bind_Ok.
  rewrite H1. simpl. rewrite Hfiles. simpl.
  revert Hloop. apply for_of_mono. intros n x y. unfold body.
  intros (e & He & Hbody)%bind_Ok. rewrite He. simpl.
  destruct (isDirectory e); [by apply IH|done].
Qed.

Lemma copyDirRecursive_fuel_le fuel fuel' s t fs fs' :
  fuel ≤ fuel' →
  copyDirRecursive fuel s t fs = Ok fs' →
  copyDirRecursive fuel' s t fs = Ok fs'.
Proof.
  induction 1 as [|fuel' _ IH]; [done|].
  intros H. by apply copyDirRecursive_fuel_S, IH.
Qed.

(** A finite file system has a deepest path. *)
Lemma depth_below_exists fs s : ∃ fuel, depth_below fs s fuel.
Proof.
  exists (S (max_list (length <$> (map_to_list fs).*1))).
  intros r Hr.
  assert (length (s ++ r) ≤ max_list (length <$> (map_to_list fs).*1)) as Hle.
  { apply max_list_elem_of_le, list_elem_of_fmap. exists (s ++ r). split; [done|].
    apply list_elem_of_fmap. exists (s ++ r, Directory). split; [done|].
    by apply elem_of_map_to_list. }
  rewrite length_app in Hle. lia.
Qed.

End Fuel.

Section Checks.
Implicit Types (p q s t r : list string) (n : string) (fs : FS).

Lemma wf_check_sound fs : wf_check fs = true → wf fs.
Proof.
  unfold wf_check. intros H%bool_decide_eq_true p n [e He].
  destruct (map_Forall_lookup_1 _ _ _ _ H He) as [Hnil|Hdir].
  - by apply join_not_nil in Hnil.
  - by rewrite dirname_join in Hdir.
Qed.

Lemma compatible_check_sound fs s t :
  compatible_check fs s t = true → compatible fs s t.
Proof.
  unfold compatible_check. intros H%bool_decide_eq_true r e e' He He'.
  pose proof (map_Forall_lookup_1 _ _ _ _ H He) as Hq. simpl in Hq.
  rewrite drop_app_length, He' in Hq. apply Hq. by apply prefix_app_r.
Qed.

Lemma for_of_fails files body n fs fs' :
  n ∈ files → (∀ x y, body n x ≠ Ok y) → for_of files body fs ≠ Ok fs'.
Proof.
  intros Hn Hbody. revert fs. induction files as [|m files IH]; intros fs.
  - by apply elem_of_nil in Hn.
  - simpl. destruct (body m fs) as [y| |] eqn:Hm; try done.
    apply elem_of_cons in Hn as [->|Hn]; [by apply Hbody in Hm|by apply IH].
Qed.

(** Copying a directory into one of its own entries never returns: the
    copy finds the target among the entries to copy and descends into it,
    however much stack it is given. *)
Lemma copyDirRecursive_into_child fuel s n fs fs' :
  copyDirRecursive fuel s (join s n) fs ≠ Ok fs'.
Proof.
  revert s fs fs'. induction fuel as [|k IH]; intros s fs fs'; [done|].
  rewrite copyDirRecursive_S. unfold mbind at 1, result_bind at 1.
  destruct (if negb (existsSync (join s n) fs) then _ else _) as [fs1| |] eqn:H1;
    try done.
  apply ensure_target_Ok in H1 as (Hex & _).
  unfold mbind at 1, result_bind at 1.
  destruct (readdirSync s fs1) as [files| |] eqn:Hfiles; try done.
  apply readdirSync_Ok in Hfiles as (_ & _ & Hin).
  apply (for_of_fails files _ n); [by apply Hin|].
  intros x y Hbody. apply body_Ok in Hbody as [[_ Hrec]|(data & Hfile & Hcp)].
  - by apply IH in Hrec.
  - apply copyFileSync_Ok in Hcp as (_ & _ & _ & _ & Hpar & _).
    rewrite dirname_join in Hpar. congruence.
Qed.

(** A run that is seen, by evaluation, to return a given file system, or
    to return with [e] at [p]. *)
Lemma returns_same (r : result FS) (fs' : FS) :
  match r with
  | Ok fs => bool_decide (fs = fs')
  | _ => false
  end = true → r = Ok fs'.
Proof.
  destruct r as [fs| |]; [|done..]. by intros ->%bool_decide_eq_true.
Qed.

Lemma returns_with (r : result FS) (p : list string) (e : entry) :
  match r with
  | Ok fs' => bool_decide (fs' !! p = Some e)
  | _ => false
  end = true →
  ∃ fs', r = Ok fs' ∧ fs' !! p = Some e.
Proof.
  destruct r as [fs'| |]; [|done..].
  intros H%bool_decide_eq_true. by exists fs'.
Qed.

End Checks.

(** The copy on the small tree, as the code runs it. *)
Example copyDirRecursive_example :
  copyDirRecursive 2 ["src"] ["out"; "copy"] example_fs =
  Ok (list_to_map
        [ ([], Directory);
          (["src"], Directory);
          (["src"; "a.txt"], File "alpha");
          (["src"; "sub"], Directory);
          (["src"; "sub"; "b.txt"], File "beta");
          (["out"], Directory);
          (["out"; "copy"], Directory);
          (["out"; "copy"; "a.txt"], File "alpha");
          (["out"; "copy"; "sub"], Directory);
          (["out"; "copy"; "sub"; "b.txt"], File "beta") ]).
Proof. apply returns_same. vm_compute. reflexivity. Qed.

(** Into an existing target the copy merges: a file of the same name is
    overwritten, what the source does not have is kept. *)
Example copyDirRecursive_merge :
  copyDirRecursive 2 ["src"] ["out"]
    (<[ ["out"; "a.txt"] := File "old" ]>
       (<[ ["out"; "keep.txt"] := File "kept" ]> example_fs)) =
  Ok (list_to_map
        [ ([], Directory);
          (["src"], Directory);
          (["src"; "a.txt"], File "alpha");
          (["src"; "sub"], Directory);
          (["src"; "sub"; "b.txt"], File "beta");
          (["out"], Directory);
          (["out"; "keep.txt"], File "kept");
          (["out"; "a.txt"], File "alpha");
          (["out"; "sub"], Directory);
          (["out"; "sub"; "b.txt"], File "beta") ]).
Proof. apply returns_same. vm_compute. reflexivity. Qed.

(** Claim C9, as amended. For a call [copyDirRecursive sourceDir targetDir]
    on a file system in which [sourceDir] is a directory, neither directory
    lies inside the other, [targetDir] exists or else its parent directory
    does, and no entry already below [targetDir] is a file where the source
    has a directory or a directory where the source has a file: the call
    returns (with enough stack, and then whatever the stack), [targetDir] is
    a directory afterwards, every file (with its contents) and every
    directory below [sourceDir] is at the same relative path below
    [targetDir], [sourceDir] and all below it is unchanged, and so is
    everything outside [targetDir]. *)
Theorem copyDirRecursive_copies (sourceDir targetDir : list string) (fs : FS) :
  wf fs →
  fs !! sourceDir = Some Directory →
  disjoint sourceDir targetDir →
  (fs !! targetDir = None → fs !! dirname targetDir = Some Directory) →
  compatible fs sourceDir targetDir →
  ∃ fs',
    (∃ depth, ∀ fuel, depth ≤ fuel →
       copyDirRecursive fuel sourceDir targetDir fs = Ok fs') ∧
    fs' !! targetDir = Some Directory ∧
    (∀ r e, fs !! (sourceDir ++ r) = Some e →
            fs' !! (targetDir ++ r) = Some e) ∧
    (∀ r, fs' !! (sourceDir ++ r) = fs !! (sourceDir ++ r)) ∧
    (∀ p, ¬ targetDir `prefix_of` p → fs' !! p = fs !! p).
Proof.
  intros Hwf Hs Hdis Hpar Hcompat.
  destruct (depth_below_exists fs sourceDir) as [depth Hdepth].
  destruct (copyDirRecursive_copies_all depth sourceDir targetDir fs)
    as (fs' & Hrun & Hcopied); try done.
  exists fs'. split; [|split; [|split; [done|split]]].
  - exists depth. intros fuel Hle. by apply (copyDirRecursive_fuel_le depth).
  - rewrite <- (app_nil_r targetDir). apply Hcopied. by rewrite app_nil_r.
  - intros r. eapply copyDirRecursive_frame; [done|].
    by apply disjoint_not_prefix_app.
  - by eapply copyDirRecursive_frame.
Qed.

(** The theorem at [src/] and the absent [out/copy] of the small tree. *)
Lemma copyDirRecursive_copies_witness :
  ∃ fs',
    (∃ depth, ∀ fuel, depth ≤ fuel →
       copyDirRecursive fuel ["src"] ["out"; "copy"] example_fs = Ok fs') ∧
    fs' !! ["out"; "copy"] = Some Directory ∧
    (∀ r e, example_fs !! (["src"] ++ r) = Some e →
            fs' !! (["out"; "copy"] ++ r) = Some e) ∧
    (∀ r, fs' !! (["src"] ++ r) = example_fs !! (["src"] ++ r)) ∧
    (∀ p, ¬ ["out"; "copy"] `prefix_of` p → fs' !! p = example_fs !! p).
Proof.
  apply (copyDirRecursive_copies ["src"] ["out"; "copy"] example_fs).
  - apply wf_check_sound. vm_compute. reflexivity.
  - vm_compute. reflexivity.
  - split; intros [k Hk]; discriminate Hk.
  - intros _. vm_compute. reflexivity.
  - apply compatible_check_sound. vm_compute. reflexivity.
Defined.

(** Claim C9 as stated fails, with a source that is an existing directory
    tree each time: the call throws when the parent of the target is
    missing; it never returns when the target lies inside the source; it
    throws when the target holds a regular file where the source has a
    directory; and with the source inside the target it returns having
    added an entry to the source. *)
Lemma copyDirRecursive_counterexample :
  (wf example_fs ∧ example_fs !! ["src"] = Some Directory ∧
   ∀ fuel, copyDirRecursive (S fuel) ["src"] ["missing"; "copy"] example_fs
           = Throw ENOENT) ∧
  (∀ fuel fs',
     copyDirRecursive fuel ["src"] ["src"; "copy"] example_fs ≠ Ok fs') ∧
  (wf clash_fs ∧ clash_fs !! ["src"] = Some Directory ∧
   ∀ fuel, copyDirRecursive (S (S fuel)) ["src"] ["out"] clash_fs
           = Throw ENOTDIR) ∧
  (wf nested_fs ∧ nested_fs !! ["out"; "in"] = Some Directory ∧
   nested_fs !! ["out"; "in"; "x.txt"] = None ∧
   ∀ fuel, ∃ fs',
     copyDirRecursive (S (S fuel)) ["out"; "in"] ["out"] nested_fs = Ok fs' ∧
     fs' !! ["out"; "in"; "x.txt"] = Some (File "chi")).
Proof.
  split; [|split; [|split]].
  - split; [apply wf_check_sound; vm_compute; reflexivity|].
    split; [vm_compute; reflexivity|].
    intros fuel. vm_compute. reflexivity.
  - intros fuel fs'. apply (copyDirRecursive_into_child fuel ["src"] "copy").
  - split; [apply wf_check_sound; vm_compute; reflexivity|].
    split; [vm_compute; reflexivity|].
    intros fuel. vm_compute. reflexivity.
  - split; [apply wf_check_sound; vm_compute; reflexivity|].
    split; [vm_compute; reflexivity|].
    split; [vm_compute; reflexivity|].
    intros fuel.
    destruct (returns_with (copyDirRecursive 2 ["out"; "in"] ["out"] nested_fs)
                ["out"; "in"; "x.txt"] (File "chi")) as (fs' & Hrun & Hfs').
    { vm_compute. reflexivity. }
    exists fs'. split; [|exact Hfs'].
    apply (copyDirRecursive_fuel_le 2); [lia|done].
Qed.

End FsFacts.

(** ** [copyDirRecursive]: what a call leaves alone, and calling it again *)

Module FsEffects.
Import Fs FsFacts.

Section More.
Implicit Types (p q s t r : list string) (n : string) (fs : FS).

Lemma same_kind_refl e : same_kind e e = true.
Proof. by destruct e. Qed.

Lemma same_kind_trans e1 e2 e3 :
  same_kind e1 e2 = true → same_kind e2 e3 = true → same_kind e1 e3 = true.
Proof. by destruct e1, e2, e3. Qed.

(** A call that returns has found its source to be a directory, unless
    the source is the target it has just created. *)
Lemma copyDirRecursive_Ok_source fuel s t fs fs' :
  copyDirRecursive fuel s t fs = Ok fs' → s ≠ t → fs !! s = Some Directory.
Proof.
  destruct fuel as [|fuel]; [done|]. rewrite copyDirRecursive_S.
  intros (fs1 & H1 & (files & Hfiles & _)%bind_Ok)%bind_Ok Hst.
  apply ensure_target_Ok in H1 as (_ & H1 & _).
  apply readdirSync_Ok in Hfiles as (Hs & _). by rewrite <- H1.
Qed.

Lemma copyDirRecursive_Ok_target fuel s t fs fs' :
  copyDirRecursive fuel s t fs = Ok fs' →
  fs !! t = None → fs !! dirname t = Some Directory.
Proof.
  destruct fuel as [|fuel]; [done|]. rewrite copyDirRecursive_S.
  intros (fs1 & H1 & _)%bind_Ok Ht.
  apply ensure_target_Ok in H1 as (_ & _ & H1 & _). by apply H1.
Qed.

(** Entries are only added or overwritten by one of the same kind. *)
Lemma copyDirRecursive_grows fuel s t fs fs' :
  copyDirRecursive fuel s t fs = Ok fs' →
  ∀ p e, fs !! p = Some e → ∃ e', fs' !! p = Some e' ∧ same_kind e e' = true.
Proof.
  revert s t fs fs'. induction fuel as [|fuel IH]; intros s t fs fs'; [done|].
  rewrite copyDirRecursive_S.
  intros (fs1 & H1 & (files & _ & Hloop)%bind_Ok)%bind_Ok.
  apply ensure_target_Ok in H1 as (_ & Hrest & _ & Hold).
  assert (∀ p e, fs !! p = Some e → fs1 !! p = Some e) as H1.
  { intros p e Hp. destruct (decide (p = t)) as [->|Hpt].
    - by rewrite Hold by eauto.
    - by rewrite Hrest. }
  intros p e Hp%H1. revert Hloop p e Hp.
  apply (for_of_inv (λ x, ∀ p e, fs1 !! p = Some e →
                            ∃ e', x !! p = Some e' ∧ same_kind e e' = true)).
  { intros p e Hp. exists e. split; [done|apply same_kind_refl]. }
  intros n x y _ Hx Hbody p e Hp.
  destruct (Hx p e Hp) as (e1 & He1 & Hk1).
  apply body_Ok in Hbody as [[_ Hrec]|(data & _ & Hcp)].
  - destruct (IH _ _ _ _ Hrec p e1 He1) as (e2 & He2 & Hk2).
    exists e2. split; [done|]. by eapply same_kind_trans.
  - apply copyFileSync_Ok in Hcp as (data' & _ & Hnd & _ & _ & ->).
    destruct (decide (p = join t n)) as [->|Hne].
    + exists (File data'). split; [by rewrite lookup_insert_eq|].
      destruct e1 as [d1|]; [|done]. by destruct e.
    + exists e1. split; [by rewrite lookup_insert_ne|done].
Qed.

(** With source and target apart, whatever a call that returns changed is
    a copy: the entry of the source at the same relative path. *)
Lemma copyDirRecursive_changes fuel s t fs fs' :
  disjoint s t → copyDirRecursive fuel s t fs = Ok fs' →
  ∀ p, fs' !! p = fs !! p ∨
       ∃ r, p = t ++ r ∧ is_Some (fs !! (s ++ r)) ∧ fs' !! p = fs !! (s ++ r).
Proof.
  revert s t fs fs'. induction fuel as [|fuel IH]; intros s t fs fs' Hdis; [done|].
  intros Hrun.
  pose proof (copyDirRecursive_Ok_source _ _ _ _ _ Hrun) as Hs.
  assert (s ≠ t) as Hst by (intros ->; by apply (proj1 Hdis)).
  specialize (Hs Hst).
  rewrite copyDirRecursive_S in Hrun.
  apply bind_Ok in Hrun as (fs1 & H1 & (files & _ & Hloop)%bind_Ok).
  apply ensure_target_Ok in H1 as (_ & Hrest & Hnew & Hold).
  assert (∀ p, fs1 !! p = fs !! p ∨
       ∃ r, p = t ++ r ∧ is_Some (fs !! (s ++ r)) ∧ fs1 !! p = fs !! (s ++ r)) as H1.
  { intros p. destruct (decide (p = t)) as [->|Hpt]; [|left; by apply Hrest].
    destruct (fs !! t) as [e|] eqn:Ht.
    - left. rewrite Hold by eauto. done.
    - right. exists []. rewrite !app_nil_r. split; [done|]. split; [by eauto|].
      rewrite Hs. by apply Hnew. }
  cut ((∀ p, ¬ t `prefix_of` p → fs' !! p = fs !! p) ∧
    ∀ p, fs' !! p = fs !! p ∨
       ∃ r, p = t ++ r ∧ is_Some (fs !! (s ++ r)) ∧ fs' !! p = fs !! (s ++ r)).
  { by intros [_ H]. }
  revert Hloop.
  apply (for_of_inv (λ x,
    (∀ p, ¬ t `prefix_of` p → x !! p = fs !! p) ∧
    ∀ p, x !! p = fs !! p ∨
       ∃ r, p = t ++ r ∧ is_Some (fs !! (s ++ r)) ∧ x !! p = fs !! (s ++ r))).
  { split; [|done]. intros p Hp. apply Hrest. intros ->. by apply Hp. }
  intros n x y _ [Hframe Hx] Hbody.
  assert (∀ r, x !! (s ++ r) = fs !! (s ++ r)) as Hsrc.
  { intros r. apply Hframe. by apply disjoint_not_prefix_app. }
  assert (∀ p, ¬ t `prefix_of` p → ¬ join t n `prefix_of` p) as Hout.
  { intros p Hp H. apply Hp. by etrans; [apply prefix_join_l|]. }
  apply body_Ok in Hbody as [[Hd Hrec]|(data & Hf & Hcp)].
  - split.
    { intros p Hp. rewrite (copyDirRecursive_frame _ _ _ _ _ Hrec) by auto.
      by apply Hframe. }
    intros p.
    destruct (IH _ _ _ _ (disjoint_join _ _ n Hdis) Hrec p)
      as [Hsame|(r & -> & Hsome & Hcopy)].
    + rewrite Hsame. apply Hx.
    + right. exists (n :: r). rewrite !join_app in *.
      rewrite Hsrc in Hsome, Hcopy. done.
  - apply copyFileSync_Ok in Hcp as (data' & Hf' & _ & _ & _ & ->).
    split.
    { intros p Hp. rewrite lookup_insert_ne; [by apply Hframe|].
      intros Heq. apply (Hout p Hp). by rewrite Heq. }
    intros p. destruct (decide (p = join t n)) as [->|Hne].
    + right. exists [n]. unfold join in *. rewrite Hsrc in Hf'.
      rewrite lookup_insert_eq, Hf'. eauto.
    + rewrite lookup_insert_ne by done. apply Hx.
Qed.

End More.

Section Run.
Implicit Types (p q s t r : list string) (n : string) (fs : FS).

(** Under the conditions of a successful copy, the copy returns with some
    stack, and the result holds every entry of the source. *)
Lemma copyDirRecursive_runs s t fs :
  wf fs → fs !! s = Some Directory → disjoint s t →
  (fs !! t = None → fs !! dirname t = Some Directory) →
  compatible fs s t →
  ∃ depth fs', (∀ fuel, depth ≤ fuel → copyDirRecursive fuel s t fs = Ok fs') ∧
               ∀ r e, fs !! (s ++ r) = Some e → fs' !! (t ++ r) = Some e.
Proof.
  intros Hwf Hs Hdis Hpar Hcompat.
  destruct (depth_below_exists fs s) as [depth Hdepth].
  destruct (copyDirRecursive_copies_all depth s t fs) as (fs' & Hrun & Hcopied);
    try done.
  exists depth, fs'. split; [|done].
  intros fuel Hle. by apply (copyDirRecursive_fuel_le depth).
Qed.

(** Each iteration of a loop that returned has returned, from a state
    that the iterations before it have kept within [P]. *)
Lemma for_of_elem (P : FS → Prop) (files : list string)
    (body : string → FS → result FS) fs fs' :
  P fs →
  (∀ file x y, file ∈ files → P x → body file x = Ok y → P y) →
  for_of files body fs = Ok fs' →
  ∀ n, n ∈ files → ∃ x y, P x ∧ body n x = Ok y.
Proof.
  revert fs. induction files as [|f files IH]; simpl; intros fs HP Hbody Hloop n Hn.
  - by apply elem_of_nil in Hn.
  - destruct (body f fs) as [y| |] eqn:Hy; try done.
    apply elem_of_cons in Hn as [->|Hn]; [by exists fs, y|].
    apply (IH y); [| |done|done].
    + eapply Hbody; [by left|done|done].
    + intros file x z Hin. apply Hbody. by right.
Qed.

(** A call that returned had stack for every level of directories at and
    below its source. *)
Lemma copyDirRecursive_Ok_depth fuel s t fs fs' :
  wf fs → disjoint s t → copyDirRecursive fuel s t fs = Ok fs' →
  depth_below fs s fuel.
Proof.
  revert s t fs fs'. induction fuel as [|k IH]; intros s t fs fs' Hwf Hdis; [done|].
  rewrite copyDirRecursive_S.
  intros (fs1 & H1 & (files & Hfiles & Hloop)%bind_Ok)%bind_Ok [|n r] Hr;
    [simpl; lia|].
  simpl. apply ->Nat.succ_lt_mono.
  assert (wf fs1) as Hwf1.
  { destruct (existsSync t fs); simpl in H1.
    - by injection H1 as <-.
    - apply mkdirSync_Ok in H1 as (? & ? & ? & ->). by apply wf_insert_dir. }
  apply ensure_target_Ok in H1 as (_ & Hrest & _).
  assert (∀ p, ¬ t `prefix_of` p → fs1 !! p = fs !! p) as Hframe1.
  { intros p Hp. apply Hrest. intros ->. by apply Hp. }
  apply readdirSync_Ok in Hfiles as (_ & _ & Hin).
  assert (n ∈ files) as Hn.
  { apply Hin. unfold join. rewrite Hframe1 by by apply disjoint_not_prefix_app.
    apply (wf_ancestor fs (s ++ [n]) r Hwf). rewrite <- app_assoc. simpl. eauto. }
  assert (∀ m x y, m ∈ files →
            wf x ∧ (∀ p, ¬ t `prefix_of` p → x !! p = fs !! p) →
            body k s t m x = Ok y →
            wf y ∧ (∀ p, ¬ t `prefix_of` p → y !! p = fs !! p)) as Hkeeps.
  { intros m x y _ [Hwfx Hframe] Hbody.
    assert (∀ p, ¬ t `prefix_of` p → ¬ join t m `prefix_of` p) as Hout.
    { intros p Hp H. apply Hp. by etrans; [apply prefix_join_l|]. }
    apply body_Ok in Hbody as [[_ Hrec]|(data & _ & Hcp)].
    - split; [by eapply copyDirRecursive_wf|].
      intros p Hp. rewrite (copyDirRecursive_frame _ _ _ _ _ Hrec) by auto.
      by apply Hframe.
    - apply copyFileSync_Ok in Hcp as (data' & _ & ? & ? & ? & ->).
      split; [by apply wf_insert_file|].
      intros p Hp. rewrite lookup_insert_ne; [by apply Hframe|].
      intros Heq. apply (Hout p Hp). by rewrite Heq. }
  destruct (for_of_elem _ files (body k s t) fs1 fs' (conj Hwf1 Hframe1)
              Hkeeps Hloop n Hn) as (x & y & [Hwfx Hframe] & Hbody).
  assert (∀ r', x !! (s ++ r') = fs !! (s ++ r')) as Hsrc.
  { intros r'. apply Hframe. by apply disjoint_not_prefix_app. }
  apply body_Ok in Hbody as [[_ Hrec]|(data & Hfile & _)].
  - apply (IH _ _ _ _ Hwfx (disjoint_join _ _ n Hdis) Hrec r).
    by rewrite join_app, Hsrc.
  - unfold join in Hfile. rewrite Hsrc in Hfile.
    assert (n :: r = [n]) as [= ->].
    { change (n :: r) with ([n] ++ r). f_equal.
      apply (wf_file_leaf fs (s ++ [n]) r data Hwf Hfile).
      rewrite <- app_assoc. simpl. eauto. }
    congruence.
Qed.

End Run.

(** The small tree is copied by a call with enough stack. *)
Lemma example_fs_copy :
  wf example_fs ∧ disjoint ["src"] ["out"; "copy"] ∧
  compatible example_fs ["src"] ["out"; "copy"] ∧
  ∃ fuel fs', copyDirRecursive fuel ["src"] ["out"; "copy"] example_fs = Ok fs'.
Proof.
  assert (wf example_fs) as Hwf by (apply wf_check_sound; vm_compute; reflexivity).
  assert (disjoint ["src"] ["out"; "copy"]) as Hdis
    by (split; intros [k Hk]; discriminate Hk).
  assert (compatible example_fs ["src"] ["out"; "copy"]) as Hcompat
    by (apply compatible_check_sound; vm_compute; reflexivity).
  split; [done|]. split; [done|]. split; [done|].
  destruct (copyDirRecursive_runs ["src"] ["out"; "copy"] example_fs)
    as (d & fs' & Hrun & _); try done.
  exists d, fs'. by apply Hrun.
Qed.

(** Property X1. A call that returns, whatever its arguments, has changed
    nothing outside [targetDir]: every path that does not lie at or below
    [targetDir] names afterwards what it named before. *)
Theorem copyDirRecursive_outside_target (fuel : nat)
    (sourceDir targetDir : list string) (fs fs' : FS) :
  copyDirRecursive fuel sourceDir targetDir fs = Ok fs' →
  ∀ p, ¬ targetDir `prefix_of` p → fs' !! p = fs !! p.
Proof. apply copyDirRecursive_frame. Qed.

Lemma copyDirRecursive_outside_target_witness :
  ∃ fuel fs',
    copyDirRecursive fuel ["src"] ["out"; "copy"] example_fs = Ok fs' ∧
    ∀ p, ¬ ["out"; "copy"] `prefix_of` p → fs' !! p = example_fs !! p.
Proof.
  destruct example_fs_copy as (_ & _ & _ & fuel & fs' & Hrun).
  exists fuel, fs'. split; [exact Hrun|].
  exact (copyDirRecursive_outside_target fuel _ _ _ _ Hrun).
Defined.

(** Property X2. A call that returns keeps the file system well formed:
    if every entry lay in a directory before, every entry does after. *)
Theorem copyDirRecursive_well_formed (fuel : nat)
    (sourceDir targetDir : list string) (fs fs' : FS) :
  wf fs → copyDirRecursive fuel sourceDir targetDir fs = Ok fs' → wf fs'.
Proof. apply copyDirRecursive_wf. Qed.

Lemma copyDirRecursive_well_formed_witness :
  wf example_fs ∧
  ∃ fuel fs',
    copyDirRecursive fuel ["src"] ["out"; "copy"] example_fs = Ok fs' ∧ wf fs'.
Proof.
  destruct example_fs_copy as (Hwf & _ & _ & fuel & fs' & Hrun).
  split; [exact Hwf|]. exists fuel, fs'. split; [exact Hrun|].
  exact (copyDirRecursive_well_formed fuel _ _ _ _ Hwf Hrun).
Defined.

(** Property X3. A call that returns has removed nothing and turned no
    file into a directory or directory into a file: every path that named
    an entry names one of the same kind afterwards; in particular every
    directory is still a directory. *)
Theorem copyDirRecursive_never_removes (fuel : nat)
    (sourceDir targetDir : list string) (fs fs' : FS) :
  copyDirRecursive fuel sourceDir targetDir fs = Ok fs' →
  (∀ p e, fs !! p = Some e →
          ∃ e', fs' !! p = Some e' ∧ same_kind e e' = true) ∧
  (∀ p, fs !! p = Some Directory → fs' !! p = Some Directory).
Proof.
  intros Hrun. split.
  - by apply (copyDirRecursive_grows fuel sourceDir targetDir).
  - intros p Hp.
    destruct (copyDirRecursive_grows _ _ _ _ _ Hrun p _ Hp) as (e' & -> & Hk).
    f_equal. by apply same_kind_Directory.
Qed.

Lemma copyDirRecursive_never_removes_witness :
  ∃ fuel fs',
    copyDirRecursive fuel ["src"] ["out"; "copy"] example_fs = Ok fs' ∧
    (∀ p e, example_fs !! p = Some e →
            ∃ e', fs' !! p = Some e' ∧ same_kind e e' = true) ∧
    (∀ p, example_fs !! p = Some Directory → fs' !! p = Some Directory).
Proof.
  destruct example_fs_copy as (_ & _ & _ & fuel & fs' & Hrun).
  exists fuel, fs'. split; [exact Hrun|].
  exact (copyDirRecursive_never_removes fuel _ _ _ _ Hrun).
Defined.

(** Property X4. With neither directory inside the other, whatever a call
    that returns has changed is a copy: a path whose entry differs from
    before lies at some relative path below [targetDir], the source has an
    entry at that relative path, and the path now names that entry. So what
    [targetDir] held at places where the source has nothing is kept. *)
Theorem copyDirRecursive_changes_are_copies (fuel : nat)
    (sourceDir targetDir : list string) (fs fs' : FS) :
  disjoint sourceDir targetDir →
  copyDirRecursive fuel sourceDir targetDir fs = Ok fs' →
  (∀ p, fs' !! p ≠ fs !! p →
        ∃ r, p = targetDir ++ r ∧ is_Some (fs !! (sourceDir ++ r)) ∧
             fs' !! p = fs !! (sourceDir ++ r)) ∧
  (∀ r, fs !! (sourceDir ++ r) = None →
        fs' !! (targetDir ++ r) = fs !! (targetDir ++ r)).
Proof.
  intros Hdis Hrun. split.
  - intros p Hp.
    by destruct (copyDirRecursive_changes _ _ _ _ _ Hdis Hrun p) as [?|?].
  - intros r Hr.
    destruct (copyDirRecursive_changes _ _ _ _ _ Hdis Hrun (targetDir ++ r))
      as [?|(r' & ->%app_inv_head & [e He] & _)]; [done|congruence].
Qed.

Lemma copyDirRecursive_changes_are_copies_witness :
  disjoint ["src"] ["out"; "copy"] ∧
  ∃ fuel fs',
    copyDirRecursive fuel ["src"] ["out"; "copy"] example_fs = Ok fs' ∧
    (∀ p, fs' !! p ≠ example_fs !! p →
          ∃ r, p = ["out"; "copy"] ++ r ∧
               is_Some (example_fs !! (["src"] ++ r)) ∧
               fs' !! p = example_fs !! (["src"] ++ r)) ∧
    (∀ r, example_fs !! (["src"] ++ r) = None →
          fs' !! (["out"; "copy"] ++ r) = example_fs !! (["out"; "copy"] ++ r)).
Proof.
  destruct example_fs_copy as (_ & Hdis & _ & fuel & fs' & Hrun).
  split; [exact Hdis|]. exists fuel, fs'. split; [exact Hrun|].
  exact (copyDirRecursive_changes_are_copies fuel _ _ _ _ Hdis Hrun).
Defined.

(** Property X5. Copying again changes nothing: after a call that returned
    on a well-formed file system, with neither directory inside the other
    and no file where the other side has a directory, the same call with
    the same stack returns and leaves the file system as it found it. *)
Theorem copyDirRecursive_idempotent (fuel : nat)
    (sourceDir targetDir : list string) (fs fs' : FS) :
  wf fs → disjoint sourceDir targetDir → compatible fs sourceDir targetDir →
  copyDirRecursive fuel sourceDir targetDir fs = Ok fs' →
  copyDirRecursive fuel sourceDir targetDir fs' = Ok fs'.
Proof.
  intros Hwf Hdis Hcompat Hrun.
  assert (sourceDir ≠ targetDir) as Hst by (intros ->; by apply (proj1 Hdis)).
  pose proof (copyDirRecursive_Ok_source _ _ _ _ _ Hrun Hst) as Hs.
  pose proof (copyDirRecursive_Ok_target _ _ _ _ _ Hrun) as Hpar.
  pose proof (copyDirRecursive_Ok_depth _ _ _ _ _ Hwf Hdis Hrun) as Hdepth.
  (* the first call has copied every entry of the source *)
  destruct (copyDirRecursive_copies_all fuel sourceDir targetDir fs)
    as (fs0 & Hrun0 & Hcopied); try done.
  assert (fs0 = fs') as -> by congruence.
  assert (∀ r, fs' !! (sourceDir ++ r) = fs !! (sourceDir ++ r)) as Hsrc.
  { intros r. eapply copyDirRecursive_frame; [done|].
    by apply disjoint_not_prefix_app. }
  (* so the second call meets the conditions under which a call returns *)
  destruct (copyDirRecursive_copies_all fuel sourceDir targetDir fs')
    as (fs'' & Hrun' & _).
  - by eapply copyDirRecursive_wf.
  - rewrite <- (app_nil_r sourceDir), Hsrc. by rewrite app_nil_r.
  - done.
  - intros Hn.
    rewrite <- (app_nil_r targetDir), (Hcopied [] Directory) in Hn; [done|].
    by rewrite app_nil_r.
  - intros r e e'. rewrite Hsrc. intros He%Hcopied. rewrite He.
    intros [= <-]. apply same_kind_refl.
  - intros r. rewrite Hsrc. apply Hdepth.
  - (* and whatever it changes is a copy, which is there already *)
    rewrite Hrun'. f_equal. apply map_eq. intros p.
    destruct (copyDirRecursive_changes _ _ _ _ _ Hdis Hrun' p)
      as [Hsame|(r & -> & [e He] & Hcopy)]; [done|].
    rewrite Hcopy, He. symmetry. apply Hcopied. by rewrite <- Hsrc.
Qed.

Lemma copyDirRecursive_idempotent_witness :
  wf example_fs ∧ disjoint ["src"] ["out"; "copy"] ∧
  compatible example_fs ["src"] ["out"; "copy"] ∧
  ∃ fuel fs',
    copyDirRecursive fuel ["src"] ["out"; "copy"] example_fs = Ok fs' ∧
    copyDirRecursive fuel ["src"] ["out"; "copy"] fs' = Ok fs'.
Proof.
  destruct example_fs_copy as (Hwf & Hdis & Hcompat & fuel & fs' & Hrun).
  split; [exact Hwf|]. split; [exact Hdis|]. split; [exact Hcompat|].
  exists fuel, fs'. split; [exact Hrun|].
  exact (copyDirRecursive_idempotent fuel _ _ _ _ Hwf Hdis Hcompat Hrun).
Defined.



Lemma readdirSync_empty (s : list string) (fs : FS) :
  fs !! s = Some Directory → (∀ n, fs !! join s n = None) →
  readdirSync s fs = Ok [].
Proof.
  intros Hs Hnone.
  destruct (readdirSync_Directory s fs Hs) as [files Hfiles].
  rewrite Hfiles. f_equal.
  apply readdirSync_Ok in Hfiles as (_ & _ & Hin).
  destruct files as [|n files]; [done|].
  assert (is_Some (fs !! join s n)) as [e He] by (apply Hin; by left).
  by rewrite Hnone in He.
Qed.

(** Property X7. Copying an empty directory onto a path that exists
    returns and changes nothing, also when that path is a regular file:
    the call does not notice that its target is no directory. *)
Theorem copyDirRecursive_empty_source (fuel : nat)
    (sourceDir targetDir : list string) (fs : FS) :
  fs !! sourceDir = Some Directory →
  (∀ file, fs !! join sourceDir file = None) →
  is_Some (fs !! targetDir) →
  copyDirRecursive (S fuel) sourceDir targetDir fs = Ok fs.
Proof.
  intros Hs Hnone Ht%existsSync_true.
  rewrite copyDirRecursive_S, Ht. simpl.
  by rewrite (readdirSync_empty _ _ Hs Hnone).
Qed.

(** The theorem at the empty [out/] and the regular file [src/a.txt]. *)
Lemma copyDirRecursive_empty_source_witness :
  (example_fs !! ["out"] = Some Directory ∧
   (∀ file, example_fs !! join ["out"] file = None) ∧
   example_fs !! ["src"; "a.txt"] = Some (File "alpha")) ∧
  copyDirRecursive 1 ["out"] ["src"; "a.txt"] example_fs = Ok example_fs.
Proof.
  assert (example_fs !! ["out"] = Some Directory) as Hs by (vm_compute; reflexivity).
  assert (∀ file, example_fs !! join ["out"] file = None) as Hnone.
  { intros file. unfold example_fs, join. simpl.
    rewrite !lookup_insert_ne by discriminate. apply lookup_empty. }
  assert (example_fs !! ["src"; "a.txt"] = Some (File "alpha")) as Ht
    by (vm_compute; reflexivity).
  split; [done|].
  apply (copyDirRecursive_empty_source 0 ["out"] ["src"; "a.txt"] example_fs Hs Hnone).
  by rewrite Ht.
Defined.

(** Property X8. The call needs one level of stack for every level of
    directories: under the conditions of a successful copy it returns
    within [fuel] nested calls exactly when the directories at and below
    [sourceDir] nest less than [fuel] deep. *)
Theorem copyDirRecursive_stack (fuel : nat)
    (sourceDir targetDir : list string) (fs : FS) :
  wf fs → fs !! sourceDir = Some Directory → disjoint sourceDir targetDir →
  (fs !! targetDir = None → fs !! dirname targetDir = Some Directory) →
  compatible fs sourceDir targetDir →
  ((∃ fs', copyDirRecursive fuel sourceDir targetDir fs = Ok fs') ↔
   ∀ r, fs !! (sourceDir ++ r) = Some Directory → length r < fuel).
Proof.
  intros Hwf Hs Hdis Hpar Hcompat. split.
  - intros [fs' Hrun]. by apply (copyDirRecursive_Ok_depth fuel _ targetDir _ fs').
  - intros Hdepth.
    destruct (copyDirRecursive_copies_all fuel sourceDir targetDir fs)
      as (fs' & Hrun & _); eauto.
Qed.

(** The theorem at the small tree, whose directories [src/] and [src/sub/]
    take two levels: one level of stack is not enough. *)
Lemma copyDirRecursive_stack_witness :
  (wf example_fs ∧ example_fs !! ["src"] = Some Directory ∧
   disjoint ["src"] ["out"; "copy"] ∧
   compatible example_fs ["src"] ["out"; "copy"]) ∧
  ((∃ fs', copyDirRecursive 1 ["src"] ["out"; "copy"] example_fs = Ok fs') ↔
   ∀ r, example_fs !! (["src"] ++ r) = Some Directory → length r < 1).
Proof.
  destruct example_fs_copy as (Hwf & Hdis & Hcompat & _).
  assert (example_fs !! ["src"] = Some Directory) as Hs by (vm_compute; reflexivity).
  split; [done|].
  apply (copyDirRecursive_stack 1 ["src"] ["out"; "copy"] example_fs Hwf Hs Hdis);
    [|exact Hcompat].
  intros _. vm_compute. reflexivity.
Defined.

End FsEffects.

(** ** [FileUploadComponent] *)

Module FileUploadFacts.
Import FileUpload.

Section Limit.
Context {P : Type}.

Lemma too_large_true (props : FileUploadProps P) (file : File) :
  too_large props file = true ↔
  (maxFileSizeBytes props < inject_Z (size file))%Q.
Proof.
  unfold too_large. rewrite negb_true_iff, <- not_true_iff_false, Qle_bool_iff.
  split; [apply Qnot_le_lt|apply Qlt_not_le].
Qed.

Lemma too_large_false (props : FileUploadProps P) (file : File) :
  too_large props file = false ↔
  (inject_Z (size file) <= maxFileSizeBytes props)%Q.
Proof. unfold too_large. by rewrite negb_false_iff, Qle_bool_iff. Qed.

Lemma size_message_not_empty (limit : string) :
  "File size must be less than " +:+ limit +:+ "MB" ≠ "".
Proof. done. Qed.

(** Without a chosen file only the error message is cleared. *)
Lemma handleFileChange_no_file (number_to_string : Q → string)
    (props : FileUploadProps P) (st : State) (parent : P) :
  handleFileChange number_to_string props None st parent
    = (setError "" st, parent) ∧
  handleFileChange number_to_string props (Some []) st parent
    = (setError "" st, parent).
Proof. done. Qed.

End Limit.

(** Claim C10. In [handleFileChange], a chosen file whose size in bytes
    strictly exceeds [maxFileSizeMB * 1024 * 1024], with [maxFileSizeMB]
    the property the parent passed and 10 when it passed none, is rejected:
    the error message is set, the selected file stays what it was, and the
    parent is as it was whatever callback it passed, so [onFileSelect] was
    not invoked. A file of at most that size becomes the selected file, the
    error message is cleared, and [onFileSelect], when the parent passed
    one, is invoked once, with exactly that file. *)
Theorem handleFileChange_size_limit {P : Type} (number_to_string : Q → string)
    (props : FileUploadProps P) (file : File) (others : list File)
    (st : State) (parent : P) :
  ((default (10 # 1) (maxFileSizeMB props) * (1024 # 1) * (1024 # 1)
    < inject_Z (size file))%Q →
   error (handleFileChange number_to_string props
            (Some (file :: others)) st parent).1 ≠ "" ∧
   handleFileChange number_to_string props (Some (file :: others)) st parent =
   ({| selectedFile := selectedFile st;
       error := "File size must be less than "
                +:+ number_to_string (default (10 # 1) (maxFileSizeMB props))
                +:+ "MB" |},
    parent)) ∧
  ((inject_Z (size file)
    <= default (10 # 1) (maxFileSizeMB props) * (1024 # 1) * (1024 # 1))%Q →
   handleFileChange number_to_string props (Some (file :: others)) st parent =
   ({| selectedFile := Some file; error := "" |},
    match onFileSelect props with
    | Some callback => callback file parent
    | None => parent
    end)).
Proof.
  unfold handleFileChange. simpl. split.
  - intros Hlarge. apply (proj2 (too_large_true props file)) in Hlarge.
    rewrite Hlarge. simpl. split; [apply size_message_not_empty|done].
  - intros Hsmall. apply (proj2 (too_large_false props file)) in Hsmall.
    by rewrite Hsmall.
Qed.

(** The theorem with a parent that logs the calls of [onFileSelect]. At
    the default limit one byte over ten megabytes is rejected and nothing
    is logged, and exactly ten megabytes is accepted and logged; at a limit
    of 1 MB five megabytes are rejected, the file selected before stays,
    and exactly one megabyte is accepted; at a limit of 20 MB fifteen
    megabytes are accepted. *)
Lemma handleFileChange_size_limit_witness :
  (handleFileChange show_number (logging_props None)
     (Some [ {| name := "big.pdf"; size := 10485761 |} ])
     {| selectedFile := None; error := "" |} [] =
   ({| selectedFile := None; error := "File size must be less than 10MB" |}, [])
   ∧
   handleFileChange show_number (logging_props None)
     (Some [ {| name := "fits.pdf"; size := 10485760 |} ])
     {| selectedFile := None; error := "stale" |} [] =
   ({| selectedFile := Some {| name := "fits.pdf"; size := 10485760 |};
       error := "" |},
    [ {| name := "fits.pdf"; size := 10485760 |} ]))
  ∧
  (handleFileChange show_number (logging_props (Some (1 # 1)))
     (Some [ {| name := "photo.png"; size := 5242880 |} ])
     {| selectedFile := Some {| name := "fits.pdf"; size := 1024 |};
        error := "" |} [] =
   ({| selectedFile := Some {| name := "fits.pdf"; size := 1024 |};
       error := "File size must be less than 1MB" |}, [])
   ∧
   handleFileChange show_number (logging_props (Some (1 # 1)))
     (Some [ {| name := "icon.png"; size := 1048576 |} ])
     {| selectedFile := None; error := "" |} [] =
   ({| selectedFile := Some {| name := "icon.png"; size := 1048576 |};
       error := "" |},
    [ {| name := "icon.png"; size := 1048576 |} ]))
  ∧
  (handleFileChange show_number (logging_props (Some (20 # 1)))
     (Some [ {| name := "scan.pdf"; size := 15728640 |} ])
     {| selectedFile := None; error := "" |} [] =
   ({| selectedFile := Some {| name := "scan.pdf"; size := 15728640 |};
       error := "" |},
    [ {| name := "scan.pdf"; size := 15728640 |} ])).
Proof.
  split; [split|split; [split|]].
  - apply (proj1 (handleFileChange_size_limit show_number (logging_props None)
                    {| name := "big.pdf"; size := 10485761 |} []
                    {| selectedFile := None; error := "" |} [])).
    vm_compute. reflexivity.
  - apply (proj2 (handleFileChange_size_limit show_number (logging_props None)
                    {| name := "fits.pdf"; size := 10485760 |} []
                    {| selectedFile := None; error := "stale" |} [])).
    vm_compute. discriminate.
  - apply (proj1 (handleFileChange_size_limit show_number
                    (logging_props (Some (1 # 1)))
                    {| name := "photo.png"; size := 5242880 |} []
                    {| selectedFile := Some {| name := "fits.pdf"; size := 1024 |};
                       error := "" |} [])).
    vm_compute. reflexivity.
  - apply (proj2 (handleFileChange_size_limit show_number
                    (logging_props (Some (1 # 1)))
                    {| name := "icon.png"; size := 1048576 |} []
                    {| selectedFile := None; error := "" |} [])).
    vm_compute. discriminate.
  - apply (proj2 (handleFileChange_size_limit show_number
                    (logging_props (Some (20 # 1)))
                    {| name := "scan.pdf"; size := 15728640 |} []
                    {| selectedFile := None; error := "" |} [])).
    vm_compute. discriminate.
Defined.

(** In the chat input panel the accepted file reaches the panel's state. *)
Example handleFileChange_panel :
  handleFileChange show_number panel_props
    (Some [ {| name := "diagram.png"; size := 2048 |} ])
    {| selectedFile := None; error := "" |}
    {| inputText := "hello"; panelSelectedFile := None |} =
  ({| selectedFile := Some {| name := "diagram.png"; size := 2048 |};
      error := "" |},
   {| inputText := "hello";
      panelSelectedFile := Some {| name := "diagram.png"; size := 2048 |} |}).
Proof. vm_compute. reflexivity. Qed.

End FileUploadFacts.

(** ** [ChatUIInputPanel] *)

Module ChatPanelFacts.
Import FileUpload ChatPanel.

Section Facts.
Context {P ChatMessage : Type}.
Variable number_to_string : Q → string.
Implicit Types (props : ChatUIInputPanelProps P ChatMessage) (ui : UI).

Lemma step_file_chooser props e ui parent :
  sends props e = false →
  (step number_to_string props e ui parent).2 = parent ∧
  (in_step ui → in_step (step number_to_string props e ui parent).1).
Proof.
  unfold in_step. destruct e as [files| |value|event| |w|w]; simpl; try done.
  - intros _. unfold handleFileChange.
    destruct (files ≫= head) as [file|]; simpl; [|done].
    by destruct (too_large panel_props file).
  - unfold onTextareaKeyDown. by intros ->.
Qed.

Lemma step_sends props e ui parent :
  sends props e = true →
  step number_to_string props e ui parent =
  ({| panel := {| inputText := ""; panelSelectedFile := None |};
      upload := upload ui;
      scroll := {| userHasScrolled := false;
                   skipNextScrollEvent := skipNextScrollEvent (scroll ui);
                   skipNextHistoryUpdate := skipNextHistoryUpdate (scroll ui) |} |},
   match props_onSendMessage props with
   | Some callback => callback (inputText (panel ui)) None parent
   | None => parent
   end).
Proof.
  destruct e as [files| |value|event| |w|w]; simpl; try done.
  unfold onTextareaKeyDown. by intros ->.
Qed.

End Facts.

(** Property X9. The file chooser and the panel each keep the selected
    file in a state of their own. From a state in which both hold the same,
    an event leaves them holding the same exactly unless it sends a message
    while a file is selected: choosing, rejecting and removing a file keep
    the two in step, and sending clears the panel's file but not the file
    chooser's, which goes on showing the file's name. *)
Theorem selection_in_step {P ChatMessage : Type} (number_to_string : Q → string)
    (props : ChatUIInputPanelProps P ChatMessage) (e : Event) (ui : UI)
    (parent : P) :
  in_step ui →
  (in_step (step number_to_string props e ui parent).1 ↔
   (sends props e = true → selectedFile (upload ui) = None)).
Proof.
  intros Hsync. destruct (sends props e) eqn:Hsends.
  - rewrite (step_sends number_to_string props e ui parent Hsends).
    unfold in_step. simpl. split; [by intros ? _|]. intros H. by apply H.
  - split; [done|]. intros _.
    by apply (step_file_chooser number_to_string props e ui parent Hsends).
Qed.

(** The theorem at a click on the send button with [diagram.png] selected:
    the two states are no longer in step afterwards. *)
Lemma selection_in_step_witness :
  in_step selected_ui ∧
  (in_step (step show_number (recording_props (ChatMessage := string) None)
              SendClick selected_ui []).1 ↔
   (sends (recording_props (ChatMessage := string) None) SendClick = true →
    selectedFile (upload selected_ui) = None)).
Proof.
  assert (in_step selected_ui) as Hsync by reflexivity.
  split; [exact Hsync|].
  exact (selection_in_step show_number (recording_props None) SendClick
           selected_ui [] Hsync).
Defined.



(** Property X11. The scroll event that follows an automatic scroll is not
    taken for the user's: when a change of a non-empty list of messages
    finds that the user has not scrolled away, the panel scrolls the
    window 1000 pixels past the end of the document, and the next scroll
    event, wherever it finds the window, leaves the user counted as not
    having scrolled. *)
Theorem auto_scroll_event_ignored {P ChatMessage : Type}
    (props : ChatUIInputPanelProps P ChatMessage) (w w' : Window)
    (c : ChatScrollState) :
  skipNextHistoryUpdate c = false → userHasScrolled c = false →
  0 < length (default [] (messages props)) →
  (layoutEffect props w c).2 =
    Some {| top := scrollHeight w + (1000 # 1); behavior := "instant" |} ∧
  onWindowScroll w' (layoutEffect props w c).1 =
    {| userHasScrolled := false; skipNextScrollEvent := false;
       skipNextHistoryUpdate := false |}.
Proof.
  intros Hskip Huser Hmessages. unfold layoutEffect.
  rewrite Hskip, Huser, bool_decide_eq_true_2 by done. simpl.
  split; [done|]. unfold onWindowScroll. simpl. by rewrite ?Huser, ?Hskip.
Qed.

(** The theorem with one message, and the following scroll event finding
    the window at the top of a long document. *)
Lemma auto_scroll_event_ignored_witness :
  (skipNextHistoryUpdate (scroll empty_ui) = false ∧
   userHasScrolled (scroll empty_ui) = false ∧
   0 < length (default [] (messages (recording_props (Some ["hello"]))))) ∧
  (layoutEffect (recording_props (Some ["hello"]))
     {| innerHeight := 800 # 1; scrollY := 4200 # 1; scrollHeight := 5000 # 1 |}
     (scroll empty_ui)).2 =
    Some {| top := (5000 # 1) + (1000 # 1); behavior := "instant" |} ∧
  onWindowScroll
    {| innerHeight := 800 # 1; scrollY := 0 # 1; scrollHeight := 5000 # 1 |}
    (layoutEffect (recording_props (Some ["hello"]))
       {| innerHeight := 800 # 1; scrollY := 4200 # 1; scrollHeight := 5000 # 1 |}
       (scroll empty_ui)).1 =
    {| userHasScrolled := false; skipNextScrollEvent := false;
       skipNextHistoryUpdate := false |}.
Proof.
  split; [split; [reflexivity|split; [reflexivity|simpl; lia]]|].
  apply (auto_scroll_event_ignored (recording_props (Some ["hello"]))).
  - reflexivity.
  - reflexivity.
  - simpl. lia.
Defined.

(** Property X12. Sending resumes the automatic scrolling: after
    [onSendMessage], even if the user had scrolled away, the next change of
    a non-empty list of messages scrolls the window to the end (unless the
    update is one that was to be skipped). *)
Theorem send_resumes_auto_scroll {P ChatMessage : Type}
    (props props' : ChatUIInputPanelProps P ChatMessage) (panel : PanelState)
    (c : ChatScrollState) (parent : P) (w : Window) :
  skipNextHistoryUpdate c = false →
  0 < length (default [] (messages props')) →
  (layoutEffect props' w (onSendMessage props panel c parent).1.2).2 =
    Some {| top := scrollHeight w + (1000 # 1); behavior := "instant" |}.
Proof.
  intros Hskip Hmessages. unfold layoutEffect, onSendMessage. simpl.
  by rewrite Hskip, bool_decide_eq_true_2.
Qed.

(** The theorem with a user who had scrolled away before sending. *)
Lemma send_resumes_auto_scroll_witness :
  (skipNextHistoryUpdate scrolled_away = false ∧
   0 < length (default [] (messages (recording_props (Some ["hello"]))))) ∧
  (layoutEffect (recording_props (Some ["hello"]))
     {| innerHeight := 800 # 1; scrollY := 0 # 1; scrollHeight := 5000 # 1 |}
     (onSendMessage (recording_props (ChatMessage := string) None)
        {| inputText := "more"; panelSelectedFile := None |}
        scrolled_away []).1.2).2 =
    Some {| top := (5000 # 1) + (1000 # 1); behavior := "instant" |}.
Proof.
  split; [split; [reflexivity|simpl; lia]|].
  apply (send_resumes_auto_scroll (recording_props None)
           (recording_props (Some ["hello"]))).
  - reflexivity.
  - simpl. lia.
Defined.

End ChatPanelFacts.

(** ** The Amplify configuration and the chat API service *)

Module ApiFacts.
Import FileUpload Api.

Lemma not_set_false value :
  not_set value = false ↔ ∃ s, value = Some s ∧ s ≠ "".
Proof.
  destruct value as [s|]; simpl.
  - rewrite String.eqb_neq. split; [eauto|]. by intros (? & [= <-] & ?).
  - split; [done|]. by intros (? & ? & ?).
Qed.

Lemma configure_Configured_iff (env : gmap string string)
    (config : ResourcesConfig) :
  configure env = Configured config ↔
  ∃ e r, env !! "REACT_APP_API_ENDPOINT" = Some e ∧ e ≠ "" ∧
         env !! "REACT_APP_AWS_REGION" = Some r ∧ r ≠ "" ∧
         config = {| REST := {[ "chatApi" := {| endpoint := e; region := r |} ]} |}.
Proof.
  unfold configure. split.
  - destruct (not_set (env !! "REACT_APP_API_ENDPOINT")) eqn:He; [done|].
    destruct (not_set (env !! "REACT_APP_AWS_REGION")) eqn:Hr; [done|].
    apply not_set_false in He as (e & He & Hne).
    apply not_set_false in Hr as (r & Hr & Hnr).
    rewrite He, Hr. intros [= <-]. by exists e, r.
  - intros (e & r & He & Hne & Hr & Hnr & ->).
    rewrite (proj2 (not_set_false _)), (proj2 (not_set_false _)) by eauto.
    by rewrite He, Hr.
Qed.

Lemma not_set_true value :
  not_set value = true ↔ value = None ∨ value = Some "".
Proof.
  destruct value as [s|]; simpl.
  - rewrite String.eqb_eq. split; [intros ->; by right|].
    by intros [?|[= ->]].
  - split; [by left|done].
Qed.

(** Property X13. The module configures Amplify exactly when both
    [REACT_APP_API_ENDPOINT] and [REACT_APP_AWS_REGION] are set to
    non-empty strings, and then with the one REST API [chatApi] at that
    endpoint and region. Otherwise loading it throws: for the endpoint
    when that is absent or empty, whatever the region is, and else for the
    region. *)
Theorem configure_outcome (env : gmap string string) :
  (∀ config,
     configure env = Configured config ↔
     ∃ e r, env !! "REACT_APP_API_ENDPOINT" = Some e ∧ e ≠ "" ∧
            env !! "REACT_APP_AWS_REGION" = Some r ∧ r ≠ "" ∧
            config =
              {| REST := {[ "chatApi" := {| endpoint := e; region := r |} ]} |}) ∧
  (env !! "REACT_APP_API_ENDPOINT" = None ∨
   env !! "REACT_APP_API_ENDPOINT" = Some "" →
   configure env = Thrown "REACT_APP_API_ENDPOINT is not defined") ∧
  ((∃ e, env !! "REACT_APP_API_ENDPOINT" = Some e ∧ e ≠ "") →
   env !! "REACT_APP_AWS_REGION" = None ∨
   env !! "REACT_APP_AWS_REGION" = Some "" →
   configure env = Thrown "REACT_APP_AWS_REGION is not defined").
Proof.
  split; [apply configure_Configured_iff|]. unfold configure. split.
  - intros He%not_set_true. by rewrite He.
  - intros He%not_set_false Hr%not_set_true. by rewrite He, Hr.
Qed.

Lemma getAll_app name (l1 l2 : FormData) :
  getAll name (l1 ++ l2) = getAll name l1 ++ getAll name l2.
Proof. unfold getAll. by rewrite filter_app, fmap_app. Qed.

Lemma appended_files (formData : FormData) (files : list File) :
  foldl (λ formData file, append "files" (Blob file) formData) formData files
  = formData ++ ((λ file, ("files", Blob file)) <$> files).
Proof.
  revert formData. induction files as [|file files IH]; intros formData; simpl.
  - by rewrite app_nil_r.
  - rewrite IH. unfold append. by rewrite <- app_assoc.
Qed.

Lemma getAll_cons name name' value (formData : FormData) :
  getAll name ((name', value) :: formData) =
  if decide (name' = name) then value :: getAll name formData
  else getAll name formData.
Proof.
  unfold getAll. destruct (decide (name' = name)) as [Heq|Hne].
  - by rewrite filter_cons_True.
  - by rewrite filter_cons_False.
Qed.

Lemma getAll_same name (values : list FormDataEntryValue) :
  getAll name ((λ v, (name, v)) <$> values) = values.
Proof.
  induction values as [|v values IH]; [done|].
  rewrite fmap_cons, getAll_cons, decide_True by done. by rewrite IH.
Qed.

Lemma getAll_other name name' (values : list FormDataEntryValue) :
  name' ≠ name → getAll name ((λ v, (name', v)) <$> values) = [].
Proof.
  intros Hne. induction values as [|v values IH]; [done|].
  by rewrite fmap_cons, getAll_cons, decide_False.
Qed.

Lemma named_files (name : string) (files : list File) :
  (λ file, (name, Blob file)) <$> files = (λ v, (name, v)) <$> (Blob <$> files).
Proof. by rewrite <- list_fmap_compose. Qed.

(** Property X14. [sendChatMessage] posts to [/upload] of the API
    [chatApi] a form that holds the message once, under [message], and
    every file, in the order given, under [files], and nothing else; what
    [post] answers or throws is what the caller gets. *)
Theorem sendChatMessage_request {Response Error : Type}
    (post : PostInput → Response + Error) (message : string) (files : list File) :
  ∃ input,
    apiName input = "chatApi" ∧ path input = "/upload" ∧
    getAll "message" (body input) = [Text message] ∧
    getAll "files" (body input) = Blob <$> files ∧
    length (body input) = S (length files) ∧
    (sendChatMessage post message files).1 = post input.
Proof.
  exists {| apiName := "chatApi"; path := "/upload";
            body := [("message", Text message)]
                    ++ ((λ file, ("files", Blob file)) <$> files) |}.
  simpl. split; [done|]. split; [done|]. split; [|split; [|split]].
  - rewrite getAll_cons, decide_True by done.
    by rewrite named_files, (getAll_other "message" "files").
  - rewrite getAll_cons, decide_False by done.
    by rewrite named_files, getAll_same.
  - by rewrite length_fmap.
  - unfold sendChatMessage. rewrite appended_files. unfold append. simpl.
    by destruct (post _).
Qed.

End ApiFacts.

(** ** The index creation function *)

Module IndexCreationFacts.
Import IndexCreation.

Lemma after_prefix_app (pattern rest : string) :
  after_prefix pattern (pattern +:+ rest) = Some rest.
Proof.
  induction pattern as [|c pattern IH]; simpl; [by destruct rest|].
  by rewrite Ascii.eqb_refl.
Qed.

Lemma after_prefix_Some (pattern s rest : string) :
  after_prefix pattern s = Some rest → s = pattern +:+ rest.
Proof.
  revert s. induction pattern as [|c pattern IH]; intros s; simpl.
  - destruct s; by intros [= <-].
  - destruct s as [|d s]; [done|].
    destruct (Ascii.eqb c d) eqn:Hcd; [|done].
    apply Ascii.eqb_eq in Hcd as <-. by intros ->%IH.
Qed.

Lemma replace_unfold (pattern replacement s : string) :
  replace pattern replacement s =
  match after_prefix pattern s with
  | Some rest => replacement +:+ rest
  | None =>
    match s with
    | EmptyString => EmptyString
    | String c rest => String c (replace pattern replacement rest)
    end
  end.
Proof. by destruct s. Qed.

Lemma replace_prefix (pattern replacement rest : string) :
  replace pattern replacement (pattern +:+ rest) = replacement +:+ rest.
Proof. by rewrite replace_unfold, after_prefix_app. Qed.

Lemma replace_absent (pattern replacement s : string) :
  (∀ a b, s ≠ a +:+ pattern +:+ b) → replace pattern replacement s = s.
Proof.
  induction s as [|c s IH]; intros Habsent; simpl.
  - destruct (after_prefix pattern "") as [rest|] eqn:Hp; [|done].
    apply after_prefix_Some in Hp. by destruct (Habsent "" rest).
  - destruct (after_prefix pattern (String c s)) as [rest|] eqn:Hp.
    + apply after_prefix_Some in Hp. by destruct (Habsent "" rest).
    + f_equal. apply IH. intros a b ->. by apply (Habsent (String c a) b).
Qed.

(** Property X15. The host name the index creation function connects to
    is the endpoint without its leading [https://]; an endpoint in which
    [https://] does not occur (one with another scheme, say) is used as it
    is. *)
Theorem hostname_without_scheme :
  (∀ host, hostname (options ("https://" +:+ host)) = host) ∧
  (∀ endpoint, (∀ a b, endpoint ≠ a +:+ "https://" +:+ b) →
               hostname (options endpoint) = endpoint).
Proof.
  split.
  - intros host. exact (replace_prefix "https://" "" host).
  - intros endpoint Habsent. by apply replace_absent.
Qed.

End IndexCreationFacts.

(** ** [run-container.sh] *)

Module RunContainerFacts.
Import RunContainer.

Lemma parse_option fuel script o rest st :
  parse (S fuel) script (words o ++ rest) st = parse fuel script rest (set st o).
Proof. by destruct o. Qed.

Lemma parse_options fuel script opts rest st :
  parse (length opts + fuel) script (concat (words <$> opts) ++ rest) st =
  parse fuel script rest (foldl set st opts).
Proof.
  revert st. induction opts as [|o opts IH]; intros st; [done|].
  rewrite fmap_cons, concat_cons, <- app_assoc.
  change (length (o :: opts) + fuel) with (S (length opts + fuel)).
  rewrite parse_option. apply IH.
Qed.

Lemma parse_dangling fuel script arg st :
  takes_value arg = true → parse fuel script [arg] st = OutOfFuel.
Proof.
  intros Harg%bool_decide_eq_true. revert st.
  induction fuel as [|fuel IH]; intros st; [done|].
  repeat (apply elem_of_cons in Harg as [->|Harg]); [..|by apply elem_of_nil in Harg];
    simpl; apply IH; set_solver.
Qed.


Lemma parse_options_out_of_fuel fuel script opts rest st :
  fuel ≤ length opts →
  parse fuel script (concat (words <$> opts) ++ rest) st = OutOfFuel.
Proof.
  revert fuel st. induction opts as [|o opts IH]; intros fuel st Hle.
  - by destruct fuel; [|simpl in Hle; lia].
  - destruct fuel as [|fuel]; [done|].
    rewrite fmap_cons, concat_cons, <- app_assoc, parse_option.
    apply IH. simpl in Hle. lia.
Qed.



(** Property X16. On a command line made of complete options (a flag, or
    a name followed by its value, which may be any word) the loop ends in
    as many iterations as there are options, with the settings the options
    give in order: a later option overrides an earlier one of its kind. *)
Theorem parse_complete_options (fuel : nat) (script : string)
    (opts : list Option) (st : Settings) :
  length opts < fuel →
  parse fuel script (concat (words <$> opts)) st = Continue (foldl set st opts).
Proof.
  intros Hfuel.
  replace fuel with (length opts + S (fuel - S (length opts))) by lia.
  rewrite <- (app_nil_r (concat _)). by rewrite parse_options.
Qed.

Lemma parse_complete_options_witness :
  length [BucketName "first"; Rebuild; BucketName "docs"; Port "9000"] < 5 ∧
  parse 5 "./run-container.sh"
    ["-b"; "first"; "--rebuild"; "-b"; "docs"; "-P"; "9000"] defaults =
  Continue {| PROFILE := "default"; ROLE_ARN := ""; BUCKET_NAME := "docs";
              REBUILD := true; PORT := "9000"; PRINT_SCHEMA := false |}.
Proof.
  split; [simpl; lia|].
  apply (parse_complete_options 5 "./run-container.sh"
           [BucketName "first"; Rebuild; BucketName "docs"; Port "9000"] defaults).
  simpl. lia.
Defined.

(** Property X17. A command line that ends in a name without its value
    ([-p], [-r], [-b] or [-P] as the last word, after any complete
    options) never gets out of the loop: [shift 2] fails on the one word
    left and leaves it, so the same word is read again, however many
    iterations the loop is given. *)
Theorem parse_dangling_option_never_ends (fuel : nat) (script : string)
    (opts : list Option) (arg : string) (st : Settings) :
  takes_value arg = true →
  parse fuel script (concat (words <$> opts) ++ [arg]) st = OutOfFuel.
Proof.
  intros Harg. destruct (decide (fuel ≤ length opts)) as [Hle|Hgt].
  - by apply parse_options_out_of_fuel.
  - replace fuel with (length opts + (fuel - length opts)) by lia.
    rewrite parse_options. by apply parse_dangling.
Qed.

Lemma parse_dangling_option_never_ends_witness :
  takes_value "-b" = true ∧
  parse 1000 "./run-container.sh" ["--rebuild"; "-b"] defaults = OutOfFuel.
Proof.
  split; [reflexivity|].
  apply (parse_dangling_option_never_ends 1000 "./run-container.sh" [Rebuild] "-b").
  reflexivity.
Defined.





End RunContainerFacts.

(** ** The buckets *)

Module CdkFacts.
Import Cdk.

Lemma diagramBucket_retention : retention_days diagramBucket = Some 7.
Proof. reflexivity. Qed.

Lemma diagramBucket_may_expire (age : nat) :
  may_expire diagramBucket age = bool_decide (7 ≤ age).
Proof. reflexivity. Qed.

Lemma outputBucket_retention : retention_days outputBucket = None.
Proof. reflexivity. Qed.

Lemma outputBucket_never_expires (age : nat) : may_expire outputBucket age = false.
Proof. reflexivity. Qed.

Lemma diagramLambda_retention : retention_enforced diagramLambda 7.
Proof.
  intros b Hb. unfold buckets_of in Hb. simpl in Hb.
  apply elem_of_cons in Hb as [->|Hb]; [done|].
  by apply list_elem_of_singleton in Hb as ->.
Qed.

Lemma handler_buckets :
  buckets_of diagramGenerator = [OutputBucket] ∧
  buckets_of pdfGenerator = [OutputBucket].
Proof. done. Qed.

Lemma no_retention_on_output (f : LambdaFunction) (window : nat) :
  OutputBucket ∈ buckets_of f → ¬ retention_enforced f window.
Proof. intros Hin Henforced. by apply Henforced in Hin. Qed.

End CdkFacts.

(** ** The generation handlers *)

Module HandlersFacts.
Import Handlers.

Section Runs.
Context (engines : Engines).

Lemma locator_inj n m : locator n = locator m → n = m.
Proof.
  unfold locator. intros H%String.app_inj. by apply (inj pretty).
Qed.

(** What a run of [generateDiagram] is, by the cases of its pipeline. *)
Lemma generateDiagram_run env description services w :
  generateDiagram engines env description services w =
  match services, render_diagram engines description services with
  | [], _ => {| outcome := inl InvalidInput; world := w; effects := [] |}
  | _ :: _, None =>
    {| outcome := inl RenderFailure; world := w; effects := [Render] |}
  | _ :: _, Some image =>
    let key := locator (next_id w) in
    if store_writable env then
      {| outcome := inr key;
         world := {| objects := <[key := {| content := image;
                                            content_type := "image/png";
                                            last_modified := now env |}]>
                                  (objects w);
                     next_id := S (next_id w) |};
         effects := [Render; Put key] |}
    else
      {| outcome := inl StorageFailure;
         world := {| objects := objects w; next_id := S (next_id w) |};
         effects := [Render; Put key] |}
  end.
Proof.
  unfold generateDiagram. destruct services as [|service services]; [done|].
  unfold mbind, M_bind, render, fresh_reference, put, mret, M_ret. simpl.
  destruct (render_diagram engines description (service :: services)); simpl; [|done].
  destruct (store_writable env); done.
Qed.

Lemma generatePDFDocumentation_run env documentation link w :
  generatePDFDocumentation engines env documentation link w =
  let diagram := link ≫= λ r, content <$> objects w !! r in
  let reads := match link with Some r => [Get r] | None => [] end in
  match render_document engines documentation diagram with
  | None =>
    {| outcome := inl RenderFailure; world := w; effects := reads ++ [Render] |}
  | Some pdf =>
    let key := locator (next_id w) in
    if store_writable env then
      {| outcome := inr true;
         world := {| objects := <[key := {| content := pdf;
                                            content_type := "application/pdf";
                                            last_modified := now env |}]>
                                  (objects w);
                     next_id := S (next_id w) |};
         effects := reads ++ [Render; Put key] |}
    else
      {| outcome := inl StorageFailure;
         world := {| objects := objects w; next_id := S (next_id w) |};
         effects := reads ++ [Render; Put key] |}
  end.
Proof.
  unfold generatePDFDocumentation.
  unfold mbind, M_bind, render, fresh_reference, put, get, mret, M_ret.
  destruct link as [r|]; simpl.
  - destruct (render_document engines documentation _); simpl; [|done].
    destruct (store_writable env); done.
  - destruct (render_document engines documentation None); simpl; [|done].
    destruct (store_writable env); done.
Qed.

Lemma getPDFDocumentationDetail_run s3Uri w :
  getPDFDocumentationDetail s3Uri w =
  {| outcome := match objects w !! s3Uri with
                | Some artifact =>
                  inr {| reference := s3Uri;
                         contentType := content_type artifact;
                         sizeBytes := length (content artifact);
                         lastModified := last_modified artifact;
                         detail_status := "AVAILABLE" |}
                | None => inl NotFound
                end;
     world := w; effects := [Head s3Uri] |}.
Proof.
  unfold getPDFDocumentationDetail, mbind, M_bind, head, mret, M_ret, fail.
  simpl. by destruct (objects w !! s3Uri).
Qed.

Lemma fmap_run {A B} (f : A → B) (m : M A) w :
  (f <$> m) w = {| outcome := match outcome (m w) with
                              | inl e => inl e
                              | inr a => inr (f a)
                              end;
                   world := world (m w); effects := effects (m w) |}.
Proof.
  unfold fmap, M_fmap, mbind, M_bind, mret, M_ret. simpl.
  destruct (outcome (m w)); simpl; [done|]. by rewrite app_nil_r.
Qed.

(** One call either leaves the store as it was or adds one artifact under
    the next identifier; it writes under no other key. *)
Lemma handle_step env request w :
  next_id w ≤ next_id (world (handle engines env request w)) ∧
  (objects (world (handle engines env request w)) = objects w ∨
   ∃ artifact, objects (world (handle engines env request w)) =
               <[locator (next_id w) := artifact]> (objects w) ∧
               next_id (world (handle engines env request w)) = S (next_id w)) ∧
  (∀ r, Put r ∈ effects (handle engines env request w) →
        r = locator (next_id w) ∧
        next_id (world (handle engines env request w)) = S (next_id w)).
Proof.
  assert (∀ (link : option string) r,
            Put r ∉ match link with Some r' => [Get r'] | None => [] end)
    as Hreads.
  { intros [r'|] r Hr; [|by apply elem_of_nil in Hr].
    by apply list_elem_of_singleton in Hr. }
  assert (∀ r key, Put r ∈ [Render; Put key] → r = key) as Hput.
  { intros r key [?|[?|?%elem_of_nil]%elem_of_cons]%elem_of_cons;
      first [done|congruence]. }
  destruct request as [description services|documentation link|s3Uri|];
    unfold handle; rewrite fmap_run.
  - rewrite generateDiagram_run.
    destruct services as [|service services]; simpl.
    { split; [lia|]. split; [by left|]. by intros r ?%elem_of_nil. }
    destruct (render_diagram engines description _); simpl.
    + destruct (store_writable env); simpl.
      * split; [lia|]. split; [right; eauto|]. by intros r ->%Hput.
      * split; [lia|]. split; [by left|]. by intros r ->%Hput.
    + split; [lia|]. split; [by left|].
      by intros r [?|?%elem_of_nil]%elem_of_cons.
  - rewrite generatePDFDocumentation_run. simpl.
    destruct (render_document engines documentation _); simpl.
    + destruct (store_writable env); simpl.
      * split; [lia|]. split; [right; eauto|].
        intros r [Hr|Hr]%elem_of_app; [by apply Hreads in Hr|].
        by apply Hput in Hr as ->.
      * split; [lia|]. split; [by left|].
        intros r [Hr|Hr]%elem_of_app; [by apply Hreads in Hr|].
        by apply Hput in Hr as ->.
    + split; [lia|]. split; [by left|].
      intros r [Hr|Hr]%elem_of_app; [by apply Hreads in Hr|].
      by apply list_elem_of_singleton in Hr.
  - rewrite getPDFDocumentationDetail_run. simpl.
    split; [lia|]. split; [by left|].
    intros r Hr. by apply list_elem_of_singleton in Hr.
  - simpl. split; [lia|]. split; [by left|]. by intros r ?%elem_of_nil.
Qed.

(** Every stored artifact and every write so far is under an identifier
    that has been handed out. *)
Lemma history_issued past w :
  history engines past w →
  (∀ r, is_Some (objects w !! r) → ∃ n, r = locator n ∧ n < next_id w) ∧
  (∀ r, Put r ∈ past → ∃ n, r = locator n ∧ n < next_id w).
Proof.
  induction 1 as [|past w env request Hpast [IHobj IHput]].
  - split; [|by intros r ?%elem_of_nil].
    intros r [a Ha]. simpl in Ha. by rewrite lookup_empty in Ha.
  - destruct (handle_step env request w) as (Hle & Hobj & Hput).
    split.
    + intros r Hr. destruct Hobj as [Heq|(a & Heq & Hn)]; rewrite Heq in Hr.
      * destruct (IHobj r Hr) as (n & -> & Hlt). exists n. split; [done|lia].
      * destruct (decide (r = locator (next_id w))) as [->|Hne].
        { exists (next_id w). split; [done|lia]. }
        rewrite lookup_insert_ne in Hr by done.
        destruct (IHobj r Hr) as (n & -> & Hlt). exists n. split; [done|lia].
    + intros r [Hr|Hr]%elem_of_app.
      * destruct (IHput r Hr) as (n & -> & Hlt). exists n. split; [done|lia].
      * destruct (Hput r Hr) as [-> Hn]. exists (next_id w). split; [done|lia].
Qed.

Lemma history_next_fresh past w :
  history engines past w →
  objects w !! locator (next_id w) = None ∧ Put (locator (next_id w)) ∉ past.
Proof.
  intros [Hobj Hput]%history_issued. split.
  - apply eq_None_not_Some. intros (n & Hn%locator_inj & Hlt)%Hobj. lia.
  - intros (n & Hn%locator_inj & Hlt)%Hput. lia.
Qed.

(** No call changes an artifact that is already stored. *)
Lemma handle_preserves past w env request r artifact :
  history engines past w →
  objects w !! r = Some artifact →
  objects (world (handle engines env request w)) !! r = Some artifact.
Proof.
  intros [Hfresh _]%history_next_fresh Hr.
  destruct (handle_step env request w) as (_ & [Heq|(a & Heq & _)] & _);
    rewrite Heq; [done|].
  rewrite lookup_insert_ne; [done|]. congruence.
Qed.
End Runs.


(** The world with one stored diagram, and what was called to get there. *)
Lemma one_diagram_history :
  history example_engines [Render; Put "artifact-0"] one_diagram.
Proof.
  apply (history_call example_engines [] initial example_env
           (GenerateDiagram "three-tier web app" ["ELB"; "EC2"; "RDS"])).
  apply history_initial.
Qed.



(** Claim C5, as amended. Once stored, an artifact is never changed: in any
    world the handlers can bring about, whatever the next request, every
    stored artifact is the same afterwards. The storage layer enforces the
    7-day retention window on the bucket of the diagram generator stack
    only: its one lifecycle rule lets objects expire from an age of 7 days.
    The output bucket of the agent stack, into which that stack's diagram
    generator and PDF generator store, declares no lifecycle rule: its
    objects are never expired. *)
Theorem artifact_lifecycle (engines : Engines) (past : list Effect) (w : World)
    (env : Env) (request : Request) (r : string) (artifact : StoredArtifact) :
  history engines past w →
  objects w !! r = Some artifact →
  objects (world (handle engines env request w)) !! r = Some artifact ∧
  Cdk.retention_enforced Cdk.diagramLambda 7 ∧
  (∀ age, Cdk.may_expire Cdk.diagramBucket age = bool_decide (7 ≤ age)) ∧
  Cdk.buckets_of Cdk.diagramGenerator = [Cdk.OutputBucket] ∧
  Cdk.buckets_of Cdk.pdfGenerator = [Cdk.OutputBucket] ∧
  Cdk.retention_days Cdk.outputBucket = None ∧
  (∀ age, Cdk.may_expire Cdk.outputBucket age = false).
Proof.
  intros Hhistory Hr.
  split; [by eapply handle_preserves|].
  split; [apply CdkFacts.diagramLambda_retention|].
  split; [apply CdkFacts.diagramBucket_may_expire|].
  split; [apply CdkFacts.handler_buckets|].
  split; [apply CdkFacts.handler_buckets|].
  split; [apply CdkFacts.outputBucket_retention|].
  apply CdkFacts.outputBucket_never_expires.
Qed.

(** The theorem at a world with one stored diagram and a request for a
    document that embeds it. *)
Lemma artifact_lifecycle_witness :
  objects (world (handle example_engines example_env
                    (GeneratePDFDocumentation "# Title" (Some "artifact-0"))
                    one_diagram)) !! "artifact-0"
    = Some {| content := [Byte.x89; Byte.x50; Byte.x50; Byte.x50];
              content_type := "image/png"; last_modified := 1 |} ∧
  Cdk.retention_enforced Cdk.diagramLambda 7 ∧
  (∀ age, Cdk.may_expire Cdk.diagramBucket age = bool_decide (7 ≤ age)) ∧
  Cdk.buckets_of Cdk.diagramGenerator = [Cdk.OutputBucket] ∧
  Cdk.buckets_of Cdk.pdfGenerator = [Cdk.OutputBucket] ∧
  Cdk.retention_days Cdk.outputBucket = None ∧
  (∀ age, Cdk.may_expire Cdk.outputBucket age = false).
Proof.
  apply (artifact_lifecycle example_engines [Render; Put "artifact-0"]
           one_diagram example_env
           (GeneratePDFDocumentation "# Title" (Some "artifact-0"))
           "artifact-0").
  - apply one_diagram_history.
  - vm_compute. reflexivity.
Defined.

(** Claim C5 as stated fails: the storage layer enforces no 7-day window on
    what the PDF generator stores, nor on what the diagram generator of the
    same stack stores; an object of their bucket is not expired at any
    age. *)
Lemma artifact_lifecycle_counterexample :
  ¬ Cdk.retention_enforced Cdk.pdfGenerator 7 ∧
  ¬ Cdk.retention_enforced Cdk.diagramGenerator 7 ∧
  Cdk.may_expire (Cdk.bucket_props Cdk.OutputBucket) 8 = false.
Proof.
  split; [|split; [|done]];
    apply CdkFacts.no_retention_on_output; apply list_elem_of_singleton; done.
Qed.

End HandlersFacts.
